(** * OpHog: the ItemMod base class and the rehydration of persisted mods

    A shallow embedding of the ItemMod part of [src/js/HammerHelper.js]
    (lines 76-188): the [ItemModType] table, the base-class constructor,
    the default hooks, [copy], [getDescription] and [rehydrateMods].

    The file also embeds the HammerHelper object of the same source file
    (lines 14-69) and the Minimap object of [src/js/Minimap.js]: its view
    rectangle, its drag handlers and the painting of the map.

    JavaScript values are embedded as the code uses them: primitives, plain
    data objects loaded from storage (property maps), and references to live
    objects on a heap.  Every operation is a computation over the program
    state (the heap and the console) that ends either normally or by
    throwing. *)

From Stdlib Require Import Floats.SpecFloat.
From stdpp Require Import gmap strings list fin_maps pretty.

Open Scope string_scope.
Open Scope list_scope.

(** ** Values *)

(** A JavaScript Number is an IEEE-754 double. *)
Definition number : Type := spec_float.

(** Primitive values. *)
Inductive prim : Type :=
  | PUndefined
  | PNull
  | PBool (b : bool)
  | PNum (n : number)
  | PStr (s : string).

(** A persisted record: a plain data object with flat fields, as it comes
    back from [localStorage]. *)
Abbreviation record := (gmap string prim).

(** What a slot of the array handed to [rehydrateMods] can hold. *)
Inductive value : Type :=
  | VPrim (p : prim)
  | VObj (r : record).

(** ** Objects, heap, program state *)

(** window.game.ItemModType (lines 76-81). *)
Inductive ItemModType : Type :=
  | LIFE_LEECH
  | THORNS
  | REDUCE_DAMAGE
  | MULTIPLE_PROJECTILES.

Definition ItemModType_value (t : ItemModType) : string :=
  match t with
  | LIFE_LEECH => "life leech"
  | THORNS => "thorns"
  | REDUCE_DAMAGE => "reduce damage"
  | MULTIPLE_PROJECTILES => "multiple projectiles"
  end.

(** The constructor whose prototype a live object has. *)
Inductive class : Type :=
  | CUnit
  | CItemMod
  | CVariant (t : ItemModType).

Record object : Type := Object {
  proto : class;
  props : gmap string prim
}.

(** A reference is an index into the heap; objects are only ever added. *)
Definition loc : Type := nat.

Record state : Type := State {
  heap : list object;
  console : list string
}.

(** ** Computations *)

Inductive exn : Type :=
  | TypeError.

(** How a computation ends.  [Wrong] is not a JavaScript outcome: it marks a
    run of the model that follows a reference denoting no object, which no
    JavaScript execution does. *)
Inductive completion (A : Type) : Type :=
  | Normal (a : A)
  | Throw (e : exn)
  | Wrong.
Arguments Normal {A} a.
Arguments Throw {A} e.
Arguments Wrong {A}.

Definition M (A : Type) : Type := state -> completion A * state.

#[export] Instance M_ret : MRet M := fun A a st => (Normal a, st).

#[export] Instance M_bind : MBind M := fun A B k m st =>
  match m st with
  | (Normal a, st') => k a st'
  | (Throw e, st') => (Throw e, st')
  | (Wrong, st') => (Wrong, st')
  end.

Definition throw {A} (e : exn) : M A := fun st => (Throw e, st).

(** The computation ends normally. *)
Definition completes {A} (r : completion A * state) : Prop :=
  match r.1 with Normal _ => True | _ => False end.

(** *** Heap and console primitives *)

(** [o.k] on a data object, for a key [k] that Object.prototype does not
    define: a missing property reads as [undefined]. *)
Definition field (r : gmap string prim) (k : string) : prim :=
  default PUndefined (r !! k).

(** [this.k] on a live object. *)
Definition get_prop (this : loc) (k : string) : M prim := fun st =>
  match heap st !! this with
  | Some o => (Normal (field (props o) k), st)
  | None => (Wrong, st)
  end.

(** [this.k = v] on a live object. *)
Definition set_prop (this : loc) (k : string) (v : prim) : M unit := fun st =>
  match heap st !! this with
  | Some o =>
      (Normal tt,
       State (<[this := Object (proto o) (<[k := v]> (props o))]> (heap st))
             (console st))
  | None => (Wrong, st)
  end.

(** [new F(...)]: a fresh object with F's prototype is allocated and F's body
    runs with it as [this]. *)
Definition new (c : class) (body : loc -> M unit) : M loc := fun st =>
  let this := length (heap st) in
  (body this ≫= λ _, mret this) (State (heap st ++ [Object c ∅]) (console st)).

(** [console.log(s)]. *)
Definition console_log (s : string) : M unit := fun st =>
  (Normal tt, State (heap st) (console st ++ [s])).

(** [v.k] on an arbitrary value, for a key [k] that no primitive wrapper
    defines: reading through [undefined] or [null] throws. *)
Definition get_member (v : value) (k : string) : M prim :=
  match v with
  | VObj r => mret (field r k)
  | VPrim PUndefined | VPrim PNull => throw TypeError
  | VPrim _ => mret PUndefined
  end.

(** [p === s] for a string [s]: values of another type are never equal. *)
Definition strict_eq_string (p : prim) (s : string) : bool :=
  match p with
  | PStr s' => bool_decide (s' = s)
  | _ => false
  end.

(** ** JavaScript arithmetic on Numbers *)

(** The operators [+ - * /] on Numbers are the IEEE-754 binary64 operations,
    rounding to nearest, ties to even. *)
Module JS.

Definition prec : Z := 53.
Definition emax : Z := 1024.

Definition NaN : number := S754_nan.
Definition zero : number := S754_zero false.

Definition add : number -> number -> number := SFadd prec emax.
Definition sub : number -> number -> number := SFsub prec emax.
Definition mul : number -> number -> number := SFmul prec emax.
Definition div : number -> number -> number := SFdiv prec emax.

(** The Number of a count (an array length, a loop index). *)
Definition of_nat (n : nat) : number :=
  binary_normalize prec emax (Z.of_nat n) 0 false.

(** [ToNumber] of a property that may be missing: [undefined] is NaN. *)
Definition ToNumber (v : option number) : number := default NaN v.

(** Math.round: the nearest integer, a tie going towards +Infinity; a
    result of zero keeps the sign of the argument. *)
Definition Math_round (x : number) : number :=
  match x with
  | S754_finite s m e =>
      if (0 <=? e)%Z then x
      else
        let d := (2 ^ (- e))%Z in
        let q := (Z.pos m / d)%Z in
        let r := (Z.pos m mod d)%Z in
        let up := if s then (d <? 2 * r)%Z else (d <=? 2 * r)%Z in
        binary_normalize prec emax
          (cond_Zopp s (if up then q + 1 else q)%Z) 0 s
  | _ => x
  end.

(** Math.ceil: the least integer not below the argument; a result of zero
    keeps the sign of the argument. *)
Definition Math_ceil (x : number) : number :=
  match x with
  | S754_finite s m e =>
      if (0 <=? e)%Z then x
      else
        let d := (2 ^ (- e))%Z in
        let q := (Z.pos m / d)%Z in
        let r := (Z.pos m mod d)%Z in
        let up := if s then false else negb (r =? 0)%Z in
        binary_normalize prec emax
          (cond_Zopp s (if up then q + 1 else q)%Z) 0 s
  | _ => x
  end.

(** Math.min of two arguments: NaN if either is NaN; -0 is below +0. *)
Definition Math_min (a b : number) : number :=
  match SFcompare a b with
  | None => NaN
  | Some Lt => a
  | Some Gt => b
  | Some Eq => match a with S754_zero true => a | _ => b end
  end.

(** Math.max of two arguments: NaN if either is NaN; +0 is above -0. *)
Definition Math_max (a b : number) : number :=
  match SFcompare a b with
  | None => NaN
  | Some Gt => a
  | Some Lt => b
  | Some Eq => match a with S754_zero false => a | _ => b end
  end.

(** ToUint32, the conversion a host applies to a Number assigned to an
    [unsigned long] attribute: NaN, the zeros and the infinities give 0; any
    other Number is truncated towards zero and taken modulo 2^32. *)
Definition ToUint32 (x : number) : Z :=
  match x with
  | S754_finite s m e =>
      let magnitude :=
        if (0 <=? e)%Z then (Z.pos m * 2 ^ e)%Z
        else (Z.pos m / 2 ^ (- e))%Z in
      (cond_Zopp s magnitude mod 2 ^ 32)%Z
  | _ => 0%Z
  end.

(** The sign bit is clear: +0, a positive number or +Infinity. *)
Definition nonneg (x : number) : bool :=
  match x with
  | S754_nan => false
  | S754_zero s | S754_infinity s | S754_finite s _ _ => negb s
  end.

Definition is_NaN (x : number) : bool :=
  match x with S754_nan => true | _ => false end.

End JS.

(** * HammerHelper (src/js/HammerHelper.js, lines 14-69) *)

Module HammerHelper.

(** The helper object: its four flags. *)
Record t : Type := Build {
  hammerDragging : bool;
  hammerResetDragging : bool;
  hammerTransforming : bool;
  hammerResetTransforming : bool
}.

(** The object as the literal creates it. *)
Definition initial : t := Build false false false false.

(** getResetDraggingHandler(): the function it returns closes over the
    helper itself, not over a copy of its flags, so firing it on [event]
    sets [hammerResetDragging] in the helper's current state. *)
Definition getResetDraggingHandler {Event : Type} (event : Event)
    (hammerHelper : t) : t :=
  Build (hammerDragging hammerHelper) true
        (hammerTransforming hammerHelper)
        (hammerResetTransforming hammerHelper).

(** update() *)
Definition update (this : t) : t :=
  let this :=
    if hammerResetDragging this
    then Build false false (hammerTransforming this)
               (hammerResetTransforming this)
    else this in
  if hammerResetTransforming this
  then Build (hammerDragging this) (hammerResetDragging this) false false
  else this.

End HammerHelper.

(** * Minimap (src/js/Minimap.js) *)

Module Minimap.

(** What the 2d context of the minimap canvas has been asked to paint; a
    filled rectangle is painted in the [fillStyle] current at the call. *)
Inductive op : Type :=
  | OpClearRect (x y w h : number)
  | OpFillRect (style : string) (x y w h : number).

Record Context : Type := BuildContext {
  fillStyle : string;
  ops : list op
}.

(** A canvas element, with its size: the [width] and [height] of a canvas
    are integers. *)
Record Canvas : Type := BuildCanvas {
  canvas_width : Z;
  canvas_height : Z
}.

(** Assigning the Number [v] to the [width] or the [height] of a canvas
    element: the element keeps ToUint32 of [v] when that is at most
    2147483647, and otherwise falls back to its default size, 300 for the
    width and 150 for the height. *)
Definition canvas_dimension (default : Z) (v : number) : Z :=
  let n := JS.ToUint32 v in
  if (n <=? 2147483647)%Z then n else default.

(** [dragStartPos]: the literal [{}] has neither property. *)
Record DragStartPos : Type := BuildDragStartPos {
  origX : option number;
  origY : option number
}.

(** The Minimap object. *)
Record t : Type := Build {
  x : number;
  y : number;
  width : number;
  height : number;
  viewX : number;
  viewY : number;
  viewW : number;
  viewH : number;
  minimapCanvas : option Canvas;
  minimapCtx : option Context;
  initializedCanvas : bool;
  dragStartPos : DragStartPos
}.

(** The object as the literal creates it. *)
Definition initial : t :=
  Build (JS.of_nat 5) (JS.of_nat 5) (JS.of_nat 100) (JS.of_nat 100)
        JS.zero JS.zero (JS.of_nat 5) (JS.of_nat 5)
        None None false (BuildDragStartPos None None).

(** A map tile, as far as the minimap looks at it: [tile.isWalkable()]. *)
Record Tile : Type := BuildTile {
  isWalkable : bool
}.

(** The fields of [game.currentMap] the minimap reads.  The two counts are
    natural numbers, small enough (below 2^53, as any array length is) for
    the index [y * numCols + x] to be exact. *)
Record Map : Type := BuildMap {
  numCols : nat;
  numRows : nat;
  widthInPixels : number;
  heightInPixels : number;
  mapTiles : list Tile
}.

(** The fields of [game.Camera] the minimap reads. *)
Record Camera : Type := BuildCamera {
  viewWidth : number;
  viewHeight : number;
  curPanX : number;
  curPanY : number;
  maxPanX : number;
  maxPanY : number
}.

(** A call [game.Camera.panInstantlyTo(panX, panY, flag)]. *)
Record PanCall : Type := BuildPanCall {
  panX : number;
  panY : number;
  panFlag : bool
}.

(** The parts of a Hammer drag event the minimap reads:
    [event.gesture.center.pageX/pageY] and [event.gesture.deltaX/deltaY]. *)
Record DragEvent : Type := BuildDragEvent {
  pageX : number;
  pageY : number;
  deltaX : number;
  deltaY : number
}.

Definition set_view (this : t) (vx vy vw vh : number) : t :=
  Build (x this) (y this) (width this) (height this) vx vy vw vh
        (minimapCanvas this) (minimapCtx this) (initializedCanvas this)
        (dragStartPos this).

Definition set_ctx (this : t) (ctx : Context) : t :=
  Build (x this) (y this) (width this) (height this)
        (viewX this) (viewY this) (viewW this) (viewH this)
        (minimapCanvas this) (Some ctx) (initializedCanvas this)
        (dragStartPos this).

(** A loop [for (var i = 0; i < n; i++)] whose body may throw. *)
Fixpoint for_each (body : nat -> Context -> completion unit * Context)
    (indices : list nat) (ctx : Context) : completion unit * Context :=
  match indices with
  | [] => (Normal tt, ctx)
  | i :: rest =>
      match body i ctx with
      | (Normal _, ctx') => for_each body rest ctx'
      | r => r
      end
  end.

(** The body of the inner loop of drawMapToMinimapCanvas for the tile in
    column [col] of row [row].  Calling [isWalkable] on a missing tile
    throws. *)
Definition draw_tile (currentMap : Map) (tileWidth tileHeight : number)
    (row col : nat) (ctx : Context) : completion unit * Context :=
  let index := row * numCols currentMap + col in
  match mapTiles currentMap !! index with
  | None => (Throw TypeError, ctx)
  | Some tile =>
      let style :=
        if isWalkable tile then "rgba(0,255,0,.55)" else "rgba(37,37,37,.55)" in
      let drawX := JS.Math_round (JS.mul (JS.of_nat col) tileWidth) in
      let drawY := JS.Math_round (JS.mul (JS.of_nat row) tileHeight) in
      (Normal tt,
       BuildContext style
         (ops ctx ++ [OpFillRect style drawX drawY tileWidth tileHeight]))
  end.

(** drawMapToMinimapCanvas(): calling [clearRect] on a context that is still
    [null] throws.  The state returned with a throw holds what had been
    painted by then. *)
Definition drawMapToMinimapCanvas (this : t) (currentMap : Map)
    : completion unit * t :=
  let tileWidth := JS.div (width this) (JS.of_nat (numCols currentMap)) in
  let tileHeight := JS.div (height this) (JS.of_nat (numRows currentMap)) in
  let tileWidth := JS.Math_ceil tileWidth in
  let tileHeight := JS.Math_ceil tileHeight in
  match minimapCtx this with
  | None => (Throw TypeError, this)
  | Some ctx =>
      let ctx :=
        BuildContext (fillStyle ctx)
          (ops ctx ++ [OpClearRect JS.zero JS.zero (width this) (height this)]) in
      let r :=
        for_each
          (fun row =>
             for_each (draw_tile currentMap tileWidth tileHeight row)
                      (seq 0 (numCols currentMap)))
          (seq 0 (numRows currentMap)) ctx in
      (r.1, set_ctx this r.2)
  end.

(** centerMinimapOn(x, y), for a point in screen coordinates: the call it
    makes to the camera. *)
Definition centerMinimapOn (this : t) (currentMap : Map)
    (screenX screenY : number) : PanCall :=
  let screenX := JS.sub screenX (x this) in
  let screenY := JS.sub screenY (y this) in
  let worldX :=
    JS.mul (JS.div screenX (width this)) (widthInPixels currentMap) in
  let worldY :=
    JS.mul (JS.div screenY (height this)) (heightInPixels currentMap) in
  BuildPanCall worldX worldY true.

(** handleDragStart(event) *)
Definition handleDragStart (this : t) (event : DragEvent) : t :=
  Build (x this) (y this) (width this) (height this)
        (viewX this) (viewY this) (viewW this) (viewH this)
        (minimapCanvas this) (minimapCtx this) (initializedCanvas this)
        (BuildDragStartPos (Some (JS.sub (pageX event) (x this)))
                           (Some (JS.sub (pageY event) (y this)))).

(** handleDragEvent(event): the call it makes to the camera. *)
Definition handleDragEvent (this : t) (currentMap : Map) (event : DragEvent)
    : PanCall :=
  let origX := JS.ToNumber (origX (dragStartPos this)) in
  let origY := JS.ToNumber (origY (dragStartPos this)) in
  let finalX :=
    JS.mul (JS.div (JS.Math_max JS.zero (JS.add origX (deltaX event)))
                   (width this))
           (widthInPixels currentMap) in
  let finalY :=
    JS.mul (JS.div (JS.Math_max JS.zero (JS.add origY (deltaY event)))
                   (height this))
           (heightInPixels currentMap) in
  BuildPanCall finalX finalY true.

(** zoomChanged() *)
Definition zoomChanged (this : t) (camera : Camera) (currentMap : Map) : t :=
  let widthRatio := JS.div (viewWidth camera) (widthInPixels currentMap) in
  let heightRatio := JS.div (viewHeight camera) (heightInPixels currentMap) in
  let viewW := JS.Math_round (JS.mul widthRatio (width this)) in
  let viewH := JS.Math_round (JS.mul heightRatio (height this)) in
  let viewW := JS.Math_min (width this) viewW in
  let viewH := JS.Math_min (height this) viewH in
  set_view this (viewX this) (viewY this) viewW viewH.

(** panChanged(): both coordinates are scaled by the panel's [width]. *)
Definition panChanged (this : t) (camera : Camera) : t :=
  let viewX :=
    JS.Math_round
      (JS.mul (JS.div (curPanX camera) (maxPanX camera))
              (JS.sub (width this) (viewW this))) in
  let viewY :=
    JS.Math_round
      (JS.mul (JS.div (curPanY camera) (maxPanY camera))
              (JS.sub (width this) (viewH this))) in
  set_view this viewX viewY (viewW this) (viewH this).

(** initialize(): the canvas and its context are created on the first call
    only; the canvas is given the panel's size, which it keeps as integers;
    a new 2d context paints in black. *)
Definition initialize (this : t) (camera : Camera) (currentMap : Map)
    : completion unit * t :=
  let this :=
    if negb (initializedCanvas this)
    then Build (x this) (y this) (width this) (height this)
               (viewX this) (viewY this) (viewW this) (viewH this)
               (Some (BuildCanvas (canvas_dimension 300 (width this))
                                  (canvas_dimension 150 (height this))))
               (Some (BuildContext "#000000" []))
               true (dragStartPos this)
    else this in
  match drawMapToMinimapCanvas this currentMap with
  | (Normal _, this) =>
      let this := zoomChanged this camera currentMap in
      (Normal tt, panChanged this camera)
  | r => r
  end.

(** What drawMapToMinimapCanvas paints for the tile of index [k], counting
    row by row. *)
Definition tile_op (this : t) (currentMap : Map) (k : nat) (tile : Tile)
    : op :=
  let tileWidth :=
    JS.Math_ceil (JS.div (width this) (JS.of_nat (numCols currentMap))) in
  let tileHeight :=
    JS.Math_ceil (JS.div (height this) (JS.of_nat (numRows currentMap))) in
  OpFillRect
    (if isWalkable tile then "rgba(0,255,0,.55)" else "rgba(37,37,37,.55)")
    (JS.Math_round (JS.mul (JS.of_nat (k mod numCols currentMap)) tileWidth))
    (JS.Math_round (JS.mul (JS.of_nat (k / numCols currentMap)) tileHeight))
    tileWidth tileHeight.

(** The paint operations for the tiles that exist among the indices
    [start], ..., [start + n - 1], in that order. *)
Definition tile_ops (this : t) (currentMap : Map) (start n : nat) : list op :=
  omap (fun k => tile_op this currentMap k <$> mapTiles currentMap !! k)
       (seq start n).

End Minimap.

(** ** Sample data for the minimap *)

(** A map of two rows and two columns, 64 by 64 pixels, whose second tile
    is not walkable. *)
Definition sample_map : Minimap.Map :=
  Minimap.BuildMap 2 2 (JS.of_nat 64) (JS.of_nat 64)
    [Minimap.BuildTile true; Minimap.BuildTile false;
     Minimap.BuildTile true; Minimap.BuildTile true].

(** The same map with its last tile missing. *)
Definition sample_map_short : Minimap.Map :=
  Minimap.BuildMap 2 2 (JS.of_nat 64) (JS.of_nat 64)
    [Minimap.BuildTile true; Minimap.BuildTile false; Minimap.BuildTile true].

(** A camera that sees the whole map and so has no room to pan. *)
Definition sample_camera : Minimap.Camera :=
  Minimap.BuildCamera (JS.of_nat 64) (JS.of_nat 64)
                      JS.zero JS.zero JS.zero JS.zero.

(** The minimap once its canvas and context exist. *)
Definition sample_minimap : Minimap.t :=
  Minimap.Build (JS.of_nat 5) (JS.of_nat 5) (JS.of_nat 100) (JS.of_nat 100)
    JS.zero JS.zero (JS.of_nat 5) (JS.of_nat 5)
    (Some (Minimap.BuildCanvas 100 100))
    (Some (Minimap.BuildContext "#000000" []))
    true (Minimap.BuildDragStartPos None None).

(** A drag that starts at the screen point (10, 20), and a later drag event
    that reports no movement. *)
Definition sample_drag_start : Minimap.DragEvent :=
  Minimap.BuildDragEvent (JS.of_nat 10) (JS.of_nat 20) JS.zero JS.zero.


(** ** The ItemMod base class (lines 87-147) *)

Section ItemMod.

(** Number-to-string conversion of the host (Number.prototype.toString),
    used when a number is concatenated to a string. *)
Variable Number_toString : number -> string.

(** ['...' + p]: the string a primitive contributes to a concatenation. *)
Definition ToString (p : prim) : string :=
  match p with
  | PUndefined => "undefined"
  | PNull => "null"
  | PBool true => "true"
  | PBool false => "false"
  | PNum n => Number_toString n
  | PStr s => s
  end.

(** function ItemMod(type) { this.type = type; } *)
Definition ItemMod (this : loc) (type : prim) : M unit :=
  set_prop this "type" type.

(** beforeReceiveDamage(attacker, target, damageToBeDealt) *)
Definition beforeReceiveDamage (this attacker target : loc)
    (damageToBeDealt : prim) : M prim :=
  mret damageToBeDealt.

(** onDamageDealt(attacker, target, damageDealt): empty body, so the call
    evaluates to [undefined]. *)
Definition onDamageDealt (this attacker target : loc)
    (damageDealt : prim) : M prim :=
  mret PUndefined.

(** onDamageReceived(attacker, target, damageDealt): empty body. *)
Definition onDamageReceived (this attacker target : loc)
    (damageDealt : prim) : M prim :=
  mret PUndefined.

(** onBattleTurn(attacker) *)
Definition onBattleTurn (this attacker : loc) : M bool :=
  mret false.

(** copy(): [None] is JavaScript's [null]. *)
Definition copy (this : loc) : M (option loc) :=
  type ← get_prop this "type";
  console_log ("copy - unimplemented for: " +:+ ToString type);;
  mret None.

(** getDescription() *)
Definition getDescription (this : loc) : M string :=
  type ← get_prop this "type";
  console_log ("getDescription - unimplemented for: " +:+ ToString type);;
  mret ("Unrecognized ItemMod type: " +:+ ToString type).

(** ** The concrete constructors *)

(** Modelled from the spec: the constructor game.LifeLeech, whose source is
    not under src/.  It runs the base-class constructor with its own tag
    and keeps its declared parameters (spec section 3) as flat fields under
    the names of the persisted record. *)
Definition LifeLeech (chanceToLeech leechPercentage : prim) (this : loc)
    : M unit :=
  ItemMod this (PStr (ItemModType_value LIFE_LEECH));;
  set_prop this "chanceToLeech" chanceToLeech;;
  set_prop this "leechPercentage" leechPercentage.

(** Modelled from the spec: the constructor game.Thorns, whose source is
    not under src/; same shape as [LifeLeech]. *)
Definition Thorns (thornsDamage : prim) (this : loc) : M unit :=
  ItemMod this (PStr (ItemModType_value THORNS));;
  set_prop this "thornsDamage" thornsDamage.

(** Modelled from the spec: the constructor game.ReduceDamage, whose source
    is not under src/; same shape as [LifeLeech]. *)
Definition ReduceDamage (reduceDamageAmount : prim) (this : loc) : M unit :=
  ItemMod this (PStr (ItemModType_value REDUCE_DAMAGE));;
  set_prop this "reduceDamageAmount" reduceDamageAmount.

(** Modelled from the spec: the constructor game.MultipleProjectiles, whose
    source is not under src/; same shape as [LifeLeech]. *)
Definition MultipleProjectiles (numberOfProjectiles : prim) (this : loc)
    : M unit :=
  ItemMod this (PStr (ItemModType_value MULTIPLE_PROJECTILES));;
  set_prop this "numberOfProjectiles" numberOfProjectiles.

(** ** rehydrateMods (lines 157-188) *)

(** The switch on [itemModType]: the cases are tried in source order with
    [===]; [None] is the [null] of the default case. *)
Definition rehydrate_switch (modObject : value) (itemModType : prim)
    : M (option loc) :=
  if strict_eq_string itemModType (ItemModType_value LIFE_LEECH) then
    chanceToLeech ← get_member modObject "chanceToLeech";
    leechPercentage ← get_member modObject "leechPercentage";
    finalMod ← new (CVariant LIFE_LEECH)
                   (LifeLeech chanceToLeech leechPercentage);
    mret (Some finalMod)
  else if strict_eq_string itemModType (ItemModType_value THORNS) then
    thornsDamage ← get_member modObject "thornsDamage";
    finalMod ← new (CVariant THORNS) (Thorns thornsDamage);
    mret (Some finalMod)
  else if strict_eq_string itemModType (ItemModType_value REDUCE_DAMAGE) then
    reduceDamageAmount ← get_member modObject "reduceDamageAmount";
    finalMod ← new (CVariant REDUCE_DAMAGE) (ReduceDamage reduceDamageAmount);
    mret (Some finalMod)
  else if strict_eq_string itemModType
            (ItemModType_value MULTIPLE_PROJECTILES) then
    numberOfProjectiles ← get_member modObject "numberOfProjectiles";
    finalMod ← new (CVariant MULTIPLE_PROJECTILES)
                   (MultipleProjectiles numberOfProjectiles);
    mret (Some finalMod)
  else
    console_log ("Unrecognized ItemModType: " +:+ ToString itemModType);;
    mret None.

(** One turn of the [for] loop on the slot [modObject = mods[i]]. *)
Definition rehydrate_step (finalMods : list loc) (modObject : value)
    : M (list loc) :=
  itemModType ← get_member modObject "type";
  finalMod ← rehydrate_switch modObject itemModType;
  match finalMod with
  | Some l => mret (finalMods ++ [l])
  | None => mret finalMods
  end.

(** The loop over [mods[0]], ..., [mods[mods.length - 1]]; [finalMods] is
    the array built so far. *)
Fixpoint rehydrate_loop (mods : list value) (finalMods : list loc)
    : M (list loc) :=
  match mods with
  | [] => mret finalMods
  | modObject :: rest =>
      finalMods' ← rehydrate_step finalMods modObject;
      rehydrate_loop rest finalMods'
  end.

Definition rehydrateMods (mods : list value) : M (list loc) :=
  rehydrate_loop mods [].

(** ** The operations of the core as one interface *)

(** A call into the core: a base-class method on a receiver, or the static
    [rehydrateMods] on an array of persisted records. *)
Inductive call : Type :=
  | Call_beforeReceiveDamage (this attacker target : loc) (damage : prim)
  | Call_onDamageDealt (this attacker target : loc) (damage : prim)
  | Call_onDamageReceived (this attacker target : loc) (damage : prim)
  | Call_onBattleTurn (this attacker : loc)
  | Call_copy (this : loc)
  | Call_getDescription (this : loc)
  | Call_rehydrateMods (records : list record).

Inductive result : Type :=
  | RPrim (p : prim)
  | RBool (b : bool)
  | RMod (m : option loc)
  | RString (s : string)
  | RArray (ms : list loc).

Definition run (c : call) : M result :=
  match c with
  | Call_beforeReceiveDamage this a t d =>
      p ← beforeReceiveDamage this a t d; mret (RPrim p)
  | Call_onDamageDealt this a t d =>
      p ← onDamageDealt this a t d; mret (RPrim p)
  | Call_onDamageReceived this a t d =>
      p ← onDamageReceived this a t d; mret (RPrim p)
  | Call_onBattleTurn this a =>
      b ← onBattleTurn this a; mret (RBool b)
  | Call_copy this =>
      m ← copy this; mret (RMod m)
  | Call_getDescription this =>
      s ← getDescription this; mret (RString s)
  | Call_rehydrateMods records =>
      ms ← rehydrateMods (VObj <$> records); mret (RArray ms)
  end.



(** The state after a sequence of calls, whatever each one returned. *)
Definition run_all (cs : list call) (st : state) : state :=
  foldl (fun st c => (run c st).2) st cs.

(** ** What the specification expects of rehydration *)

(** The parameters each variant declares (table of spec section 3). *)
Definition declared_params (t : ItemModType) : list string :=
  match t with
  | LIFE_LEECH => ["chanceToLeech"; "leechPercentage"]
  | THORNS => ["thornsDamage"]
  | REDUCE_DAMAGE => ["reduceDamageAmount"]
  | MULTIPLE_PROJECTILES => ["numberOfProjectiles"]
  end.

Definition all_types : list ItemModType :=
  [LIFE_LEECH; THORNS; REDUCE_DAMAGE; MULTIPLE_PROJECTILES].

(** The known type whose tag a value equals, if any. *)
Definition known_type (p : prim) : option ItemModType :=
  match p with
  | PStr s => List.find (fun t => bool_decide (ItemModType_value t = s)) all_types
  | _ => None
  end.

(** The live effect of variant [t] that carries the declared parameters
    found in the fields [r]. *)
Definition spec_instance (t : ItemModType) (r : gmap string prim) : object :=
  Object (CVariant t)
    (foldl (fun m k => <[k := field r k]> m)
           (<["type" := PStr (ItemModType_value t)]> ∅)
           (declared_params t)).

(** Spec section 4.2 on one record: the matching variant built from the
    record's fields, or nothing for an unrecognized type. *)
Definition spec_rehydrate_record (r : record) : option object :=
  t ← known_type (field r "type"); Some (spec_instance t r).

Definition has_known_type (r : record) : bool :=
  bool_decide (is_Some (known_type (field r "type"))).

Definition spec_rehydrate (records : list record) : list object :=
  omap spec_rehydrate_record records.

(** The diagnostic for a record of unrecognized type. *)
Definition diagnostic (r : record) : string :=
  "Unrecognized ItemModType: " +:+ ToString (field r "type").

Definition spec_diagnostics (records : list record) : list string :=
  diagnostic <$> filter (fun r => has_known_type r = false) records.

(** Modelled from the spec: serialization of a live effect to a persisted
    record, which is not under src/.  The record holds the effect's [type]
    and its variant's declared parameters as flat fields (spec section 3);
    how the record reaches storage is outside the core. *)
Definition serialize (e : object) : record :=
  match proto e with
  | CVariant t =>
      foldl (fun m k => <[k := field (props e) k]> m)
            (<["type" := field (props e) "type"]> ∅)
            (declared_params t)
  | _ => <["type" := field (props e) "type"]> ∅
  end.

(** A live effect of a known variant at [this]. *)
Definition live_effect (st : state) (this : loc) (e : object) : Prop :=
  heap st !! this = Some e ∧ ∃ t r, e = spec_instance t r.

(** ** Arbitrary array slots *)

(** The slots through which a member read throws. *)
Definition bad_slot (v : value) : bool :=
  match v with
  | VPrim PUndefined | VPrim PNull => true
  | _ => false
  end.

(** The fields a slot offers to a member read: a primitive offers none. *)
Definition slot_fields (v : value) : record :=
  match v with
  | VObj r => r
  | VPrim _ => ∅
  end.

(** Two records agree on what [rehydrateMods] reads from them: the [type],
    and the declared parameters of that type when it is a known one. *)
Definition same_read_fields (r r' : record) : Prop :=
  field r "type" = field r' "type"
  ∧ ∀ t, known_type (field r "type") = Some t →
         Forall (λ k, field r k = field r' k) (declared_params t).

(** ** The combat hook dispatcher *)

(** Modelled from the spec: the turn-start dispatch of the combat engine
    (spec section 4.3), which is not under src/.  [attempt m attacker] is
    the call [m.onBattleTurn(attacker)] as the prototype of [m] resolves
    it.  The effects are offered the hook in attachment order and the
    dispatch stops at the first [true].  The result tells whether the attack
    was modified and records which effects were invoked, each with what it
    returned. *)
Fixpoint dispatchBattleTurn (attempt : loc -> loc -> M bool)
    (mods : list loc) (attacker : loc) : M (bool * list (loc * bool)) :=
  match mods with
  | [] => mret (false, [])
  | m :: rest =>
      modified ← attempt m attacker;
      if (modified : bool) then mret (true, [(m, true)])
      else
        r ← dispatchBattleTurn attempt rest attacker;
        mret (r.1, (m, false) :: r.2)
  end.

(** Modelled from the spec: the pre-damage fold of the combat engine (spec
    section 4.3), which is not under src/.  [hook m attacker target d] is
    the call [m.beforeReceiveDamage(attacker, target, d)]; each effect sees
    the output of the previous one, in attachment order. *)
Fixpoint foldBeforeReceiveDamage (hook : loc -> loc -> loc -> prim -> M prim)
    (mods : list loc) (attacker target : loc) (damage : prim) : M prim :=
  match mods with
  | [] => mret damage
  | m :: rest =>
      damage' ← hook m attacker target damage;
      foldBeforeReceiveDamage hook rest attacker target damage'
  end.

(** In a dispatch record, a [true] can only be the last entry. *)
Definition stops_at_first_true (tr : list (loc * bool)) : Prop :=
  ∀ i m, tr !! i = Some (m, true) → length tr = S i.

(** [invoked_in_order attempt attacker st tr st']: starting in [st], the
    hooks of exactly the effects listed in [tr] were invoked, one after the
    other in that order; each returned what [tr] records for it; [st'] is
    the state the last of them left. *)
Inductive invoked_in_order (attempt : loc -> loc -> M bool) (attacker : loc)
    : state -> list (loc * bool) -> state -> Prop :=
  | invoked_nil st : invoked_in_order attempt attacker st [] st
  | invoked_cons st m b st1 tr st2 :
      attempt m attacker st = (Normal b, st1) ->
      invoked_in_order attempt attacker st1 tr st2 ->
      invoked_in_order attempt attacker st ((m, b) :: tr) st2.

(** ** The type-tag invariant *)

(** An instance of a concrete variant carries that variant's tag. *)
Definition tag_consistent (o : object) : Prop :=
  match proto o with
  | CVariant t => props o !! "type" = Some (PStr (ItemModType_value t))
  | _ => True
  end.

Definition heap_consistent (st : state) : Prop :=
  Forall tag_consistent (heap st).

(** Every object of [st] is still there, unchanged, in [st']. *)
Definition preserves_objects (st st' : state) : Prop :=
  ∀ l o, heap st !! l = Some o → heap st' !! l = Some o.

(** ** Sample data *)

(** The doubles 5, 0.3 and 0.5. *)
Definition num_5 : number := S754_finite false 5629499534213120 (-50).
Definition num_0_3 : number := S754_finite false 5404319552844595 (-54).
Definition num_0_5 : number := S754_finite false 4503599627370496 (-53).

(** {type:"thorns", thornsDamage:5} *)
Definition record_thorns : record :=
  <["thornsDamage" := PNum num_5]> (<["type" := PStr "thorns"]> ∅).

(** {type:"life leech", chanceToLeech:0.3, leechPercentage:0.5} *)
Definition record_life_leech : record :=
  <["leechPercentage" := PNum num_0_5]>
    (<["chanceToLeech" := PNum num_0_3]> (<["type" := PStr "life leech"]> ∅)).

(** {type:"unknown"} *)
Definition record_unknown : record := <["type" := PStr "unknown"]> ∅.

(** The objects [new Thorns(5)] and [new LifeLeech(0.3, 0.5)] build. *)
Definition object_thorns_5 : object :=
  Object (CVariant THORNS)
    (<["thornsDamage" := PNum num_5]> (<["type" := PStr "thorns"]> ∅)).

Definition object_life_leech : object :=
  Object (CVariant LIFE_LEECH)
    (<["leechPercentage" := PNum num_0_5]>
       (<["chanceToLeech" := PNum num_0_3]>
          (<["type" := PStr "life leech"]> ∅))).

Definition empty_state : state := State [] [].

(** A state whose heap holds [new Thorns(5)] at reference 0. *)
Definition state_thorns : state := State [object_thorns_5] [].

(** A state whose heap holds [new ItemMod("frost")] at reference 0: an
    effect with no override of the base-class defaults. *)
Definition state_base : state :=
  State [Object CItemMod (<["type" := PStr "frost"]> ∅)] [].

(** An [onBattleTurn] override that always modifies the attack. *)
Definition always_modifies (this attacker : loc) : M bool := mret true.

(** An [onBattleTurn] override that leaves a line on the console each time
    it is invoked and modifies the attack for the effect at reference 1
    only. *)
Definition second_modifies (this attacker : loc) : M bool :=
  console_log ("onBattleTurn of effect " +:+ pretty this);;
  mret (bool_decide (this = 1)).

(** A host conversion for the closed examples: it prints NaN, the
    infinities, the zeros and the integral doubles in plain decimal digits;
    the examples print no other number, for which it gives the empty
    string. *)
Definition sample_Number_toString (n : number) : string :=
  match n with
  | S754_nan => "NaN"
  | S754_infinity false => "Infinity"
  | S754_infinity true => "-Infinity"
  | S754_zero _ => "0"
  | S754_finite s m e =>
      let sign := if s then "-" else "" in
      if (0 <=? e)%Z then sign +:+ pretty (Z.pos m * 2 ^ e)%Z
      else if (Z.pos m mod 2 ^ (- e) =? 0)%Z
           then sign +:+ pretty (Z.pos m / 2 ^ (- e))%Z
           else ""
  end.

(** ** Properties of the primitives *)

Lemma set_prop_last h c m cs k v :
  set_prop (length h) k v (State (h ++ [Object c m]) cs)
  = (Normal tt, State (h ++ [Object c (<[k := v]> m)]) cs).
Proof.
  unfold set_prop; simpl.
  rewrite list_lookup_middle by done; simpl.
  f_equal. f_equal.
  rewrite insert_app_r_alt by done.
  by rewrite Nat.sub_diag.
Qed.

Ltac run_constructor :=
  unfold new, LifeLeech, Thorns, ReduceDamage, MultipleProjectiles, ItemMod,
    mbind, M_bind, mret, M_ret;
  by repeat (rewrite set_prop_last; simpl).

Lemma new_LifeLeech c l st :
  new (CVariant LIFE_LEECH) (LifeLeech c l) st
  = (Normal (length (heap st)),
     State (heap st ++
              [Object (CVariant LIFE_LEECH)
                 (<["leechPercentage" := l]>
                    (<["chanceToLeech" := c]>
                       (<["type" := PStr "life leech"]> ∅)))])
           (console st)).
Proof. run_constructor. Qed.

Lemma new_Thorns d st :
  new (CVariant THORNS) (Thorns d) st
  = (Normal (length (heap st)),
     State (heap st ++
              [Object (CVariant THORNS)
                 (<["thornsDamage" := d]> (<["type" := PStr "thorns"]> ∅))])
           (console st)).
Proof. run_constructor. Qed.

Lemma new_ReduceDamage a st :
  new (CVariant REDUCE_DAMAGE) (ReduceDamage a) st
  = (Normal (length (heap st)),
     State (heap st ++
              [Object (CVariant REDUCE_DAMAGE)
                 (<["reduceDamageAmount" := a]>
                    (<["type" := PStr "reduce damage"]> ∅))])
           (console st)).
Proof. run_constructor. Qed.

Lemma new_MultipleProjectiles n st :
  new (CVariant MULTIPLE_PROJECTILES) (MultipleProjectiles n) st
  = (Normal (length (heap st)),
     State (heap st ++
              [Object (CVariant MULTIPLE_PROJECTILES)
                 (<["numberOfProjectiles" := n]>
                    (<["type" := PStr "multiple projectiles"]> ∅))])
           (console st)).
Proof. run_constructor. Qed.

Lemma new_ItemMod type st :
  new CItemMod (fun this => ItemMod this type) st
  = (Normal (length (heap st)),
     State (heap st ++ [Object CItemMod (<["type" := type]> ∅)]) (console st)).
Proof. run_constructor. Qed.

(** *** The switch and the loop on persisted records *)

Lemma known_type_Some p t :
  known_type p = Some t → p = PStr (ItemModType_value t).
Proof.
  destruct p as [| | | |s]; try done. unfold known_type; simpl.
  repeat case_bool_decide; intros [= <-]; by subst.
Qed.

Lemma rehydrate_switch_known r t st :
  known_type (field r "type") = Some t →
  rehydrate_switch (VObj r) (field r "type") st
  = (Normal (Some (length (heap st))),
     State (heap st ++ [spec_instance t r]) (console st)).
Proof.
  intros Ht. rewrite (known_type_Some _ _ Ht).
  unfold rehydrate_switch, spec_instance.
  destruct t; simpl;
    unfold mbind, M_bind, mret, M_ret; simpl;
    by rewrite ?new_LifeLeech, ?new_Thorns, ?new_ReduceDamage,
               ?new_MultipleProjectiles.
Qed.

Lemma rehydrate_switch_unknown r st :
  known_type (field r "type") = None →
  rehydrate_switch (VObj r) (field r "type") st
  = (Normal None, State (heap st) (console st ++ [diagnostic r])).
Proof.
  unfold rehydrate_switch, diagnostic.
  destruct (field r "type") as [| | | |s]; try done.
  unfold known_type, strict_eq_string; simpl.
  by repeat case_bool_decide.
Qed.

Lemma has_known_type_true r :
  has_known_type r = true ↔ is_Some (spec_rehydrate_record r).
Proof.
  unfold has_known_type, spec_rehydrate_record.
  rewrite bool_decide_eq_true.
  destruct (known_type (field r "type")); simpl; split; intros [? ?]; eauto; done.
Qed.

Lemma has_known_type_false r :
  has_known_type r = false ↔ spec_rehydrate_record r = None.
Proof.
  rewrite <- not_true_iff_false, has_known_type_true, eq_None_not_Some. done.
Qed.

Lemma rehydrate_step_record finalMods r st :
  rehydrate_step finalMods (VObj r) st
  = match spec_rehydrate_record r with
    | Some e =>
        (Normal (finalMods ++ [length (heap st)]),
         State (heap st ++ [e]) (console st))
    | None =>
        (Normal finalMods, State (heap st) (console st ++ [diagnostic r]))
    end.
Proof.
  unfold rehydrate_step, spec_rehydrate_record; simpl.
  unfold mbind at 1, M_bind at 1. unfold mret at 1, M_ret at 1.
  unfold mbind at 1, M_bind at 1.
  destruct (known_type (field r "type")) as [t|] eqn:Ht; simpl.
  - by rewrite (rehydrate_switch_known _ _ _ Ht).
  - by rewrite (rehydrate_switch_unknown _ _ Ht).
Qed.

(** The whole loop on an array of persisted records: the results are fresh
    references, in record order, to the instances the specification expects;
    nothing already on the heap is touched; one diagnostic is logged for each
    record that is dropped. *)
Lemma rehydrate_loop_records records finalMods st :
  rehydrate_loop (VObj <$> records) finalMods st
  = (Normal (finalMods ++
             seq (length (heap st)) (length (spec_rehydrate records))),
     State (heap st ++ spec_rehydrate records)
           (console st ++ spec_diagnostics records)).
Proof.
  revert finalMods st.
  induction records as [|r records IH]; intros finalMods st.
  - destruct st. simpl. unfold spec_rehydrate, spec_diagnostics; simpl.
    by rewrite !app_nil_r.
  - cbn [fmap list_fmap rehydrate_loop].
    unfold mbind at 1, M_bind at 1.
    rewrite rehydrate_step_record.
    unfold spec_rehydrate, spec_diagnostics in *.
    cbn [omap list_omap]. rewrite filter_cons.
    destruct (spec_rehydrate_record r) as [e|] eqn:He.
    + rewrite IH. cbn [heap console].
      rewrite decide_False; last first.
      { intros Hf. apply has_known_type_false in Hf. congruence. }
      rewrite length_app, Nat.add_1_r. cbn [length seq].
      by rewrite <- !app_assoc.
    + rewrite IH. cbn [heap console].
      rewrite decide_True by (by apply has_known_type_false).
      rewrite fmap_cons. by rewrite <- !app_assoc.
Qed.

Lemma rehydrateMods_records records st :
  rehydrateMods (VObj <$> records) st
  = (Normal (seq (length (heap st)) (length (spec_rehydrate records))),
     State (heap st ++ spec_rehydrate records)
           (console st ++ spec_diagnostics records)).
Proof. unfold rehydrateMods. by rewrite rehydrate_loop_records. Qed.

(** Reading a member through a [null] slot throws, so the array handed to
    [rehydrateMods] has to hold objects, as its documented type says. *)
Lemma rehydrateMods_null_slot st :
  rehydrateMods [VPrim PNull] st = (Throw TypeError, st).
Proof. done. Qed.

(** *** Lists of results *)

Lemma omap_filter_Some {A B} (f : A → option B) (p : A → bool) (l : list A) :
  (∀ x, p x = true ↔ is_Some (f x)) →
  Some <$> omap f l = f <$> filter (λ x, p x = true) l.
Proof.
  intros Hp. induction l as [|x l IH]; [done|].
  cbn [omap list_omap]. rewrite filter_cons.
  destruct (f x) as [y|] eqn:Hy.
  - rewrite decide_True by (apply Hp; rewrite Hy; eauto).
    rewrite !fmap_cons, Hy. by f_equal.
  - rewrite decide_False; [done|].
    intros Hx. apply Hp in Hx. rewrite Hy in Hx. by destruct Hx.
Qed.

Lemma lookup_seq_app {A} (h objs : list A) :
  (λ l, (h ++ objs) !! l) <$> seq (length h) (length objs) = Some <$> objs.
Proof.
  revert h. induction objs as [|o objs IH]; intros h; [done|].
  cbn [length seq fmap list_fmap]. f_equal.
  - by rewrite list_lookup_middle.
  - specialize (IH (h ++ [o])).
    rewrite length_app, Nat.add_1_r, <- app_assoc in IH. exact IH.
Qed.

Lemma length_filter_split {A} (p : A → bool) (l : list A) :
  length (filter (λ x, p x = true) l) + length (filter (λ x, p x = false) l)
  = length l.
Proof.
  induction l as [|x l IH]; [done|].
  rewrite !filter_cons. destruct (p x) eqn:Hx.
  - rewrite decide_True, decide_False by done. simpl. lia.
  - rewrite decide_False, decide_True by done. simpl. lia.
Qed.

(** ** Rehydration *)

(** C1: on every array of persisted records [rehydrateMods] returns normally;
    its result holds, in record order, exactly one live effect for each
    record whose [type] is a known tag; a record of any other type adds
    nothing to the result and one diagnostic to the console; and when exactly
    one record has an unknown type the result is one shorter than the
    input. *)
Theorem rehydrateMods_drops_unknown (records : list record) (st : state) :
  ∃ finalMods st',
    rehydrateMods (VObj <$> records) st = (Normal finalMods, st')
    ∧ (λ l, heap st' !! l) <$> finalMods
      = spec_rehydrate_record <$> filter (λ r, has_known_type r = true) records
    ∧ length finalMods
      = length (filter (λ r, has_known_type r = true) records)
    ∧ console st'
      = console st
        ++ (diagnostic <$> filter (λ r, has_known_type r = false) records)
    ∧ (length (filter (λ r, has_known_type r = false) records) = 1 →
       S (length finalMods) = length records).
Proof.
  eexists _, _. split; [apply rehydrateMods_records|].
  cbn [heap console].
  assert (Hlen : length (spec_rehydrate records)
                 = length (filter (λ r, has_known_type r = true) records)).
  { rewrite <- (length_fmap Some). unfold spec_rehydrate.
    rewrite (omap_filter_Some _ has_known_type) by apply has_known_type_true.
    by rewrite length_fmap. }
  split_and!.
  - rewrite lookup_seq_app. unfold spec_rehydrate.
    apply omap_filter_Some, has_known_type_true.
  - by rewrite length_seq.
  - done.
  - intros Hone. rewrite length_seq, Hlen.
    pose proof (length_filter_split has_known_type records). lia.
Qed.

(** C2: [rehydrateMods] agrees with the specification's dispatch: the heap
    gains, in record order, the instance of the matching variant built from
    the record's declared parameters; a record tagged with a known type is
    handed to that type's constructor with exactly those fields; and the
    three-record scenario yields Thorns(5) then LifeLeech(0.3, 0.5). *)
Theorem rehydrateMods_dispatch :
  (∀ (records : list record) st,
     rehydrateMods (VObj <$> records) st
     = (Normal (seq (length (heap st)) (length (spec_rehydrate records))),
        State (heap st ++ spec_rehydrate records)
              (console st ++ spec_diagnostics records)))
  ∧ (∀ (r0 : record) st,
       let r := <["type" := PStr "life leech"]> r0 in
       rehydrateMods [VObj r] st
       = (m ← new (CVariant LIFE_LEECH)
                  (LifeLeech (field r "chanceToLeech")
                             (field r "leechPercentage"));
          mret [m]) st)
  ∧ (∀ (r0 : record) st,
       let r := <["type" := PStr "thorns"]> r0 in
       rehydrateMods [VObj r] st
       = (m ← new (CVariant THORNS) (Thorns (field r "thornsDamage"));
          mret [m]) st)
  ∧ (∀ (r0 : record) st,
       let r := <["type" := PStr "reduce damage"]> r0 in
       rehydrateMods [VObj r] st
       = (m ← new (CVariant REDUCE_DAMAGE)
                  (ReduceDamage (field r "reduceDamageAmount"));
          mret [m]) st)
  ∧ (∀ (r0 : record) st,
       let r := <["type" := PStr "multiple projectiles"]> r0 in
       rehydrateMods [VObj r] st
       = (m ← new (CVariant MULTIPLE_PROJECTILES)
                  (MultipleProjectiles (field r "numberOfProjectiles"));
          mret [m]) st)
  ∧ rehydrateMods
      [VObj record_thorns; VObj record_life_leech; VObj record_unknown]
      empty_state
    = (Normal [0; 1],
       State [object_thorns_5; object_life_leech]
             ["Unrecognized ItemModType: unknown"]).
Proof.
  split_and!; try done; try apply rehydrateMods_records.
  all: intros r0 st r;
    unfold rehydrateMods, rehydrate_loop, rehydrate_step, get_member,
      rehydrate_switch;
    unfold field at 1; subst r; rewrite lookup_insert_eq;
    unfold mbind, M_bind, mret, M_ret; simpl;
    by rewrite ?new_LifeLeech, ?new_Thorns, ?new_ReduceDamage,
               ?new_MultipleProjectiles.
Qed.

(** ** The base-class defaults *)

Lemma copy_run this o st :
  heap st !! this = Some o →
  copy this st
  = (Normal None,
     State (heap st)
           (console st
            ++ ["copy - unimplemented for: "
                +:+ ToString (field (props o) "type")])).
Proof.
  intros Hthis. unfold copy, get_prop, console_log, mbind, M_bind.
  by rewrite Hthis.
Qed.

Lemma getDescription_run this o st :
  heap st !! this = Some o →
  getDescription this st
  = (Normal ("Unrecognized ItemMod type: "
             +:+ ToString (field (props o) "type")),
     State (heap st)
           (console st
            ++ ["getDescription - unimplemented for: "
                +:+ ToString (field (props o) "type")])).
Proof.
  intros Hthis. unfold getDescription, get_prop, console_log, mbind, M_bind.
  by rewrite Hthis.
Qed.

(** C5: on a live effect that inherits the base-class [copy], the call logs
    one diagnostic naming the effect's type and returns [null]; it does not
    throw and leaves the heap as it was. *)
Theorem copy_unimplemented (this : loc) (o : object) (st : state) :
  heap st !! this = Some o →
  copy this st
  = (Normal None,
     State (heap st)
           (console st
            ++ ["copy - unimplemented for: "
                +:+ ToString (field (props o) "type")])).
Proof. apply copy_run. Qed.

(** C6: on a live effect that inherits the base-class [getDescription], the
    call returns the fallback string, which ends with the effect's type tag,
    and logs one diagnostic; it does not throw.  For a string tag [s] the
    result is "Unrecognized ItemMod type: " followed by [s]. *)
Theorem getDescription_unimplemented (this : loc) (o : object) (st : state) :
  heap st !! this = Some o →
  getDescription this st
  = (Normal ("Unrecognized ItemMod type: "
             +:+ ToString (field (props o) "type")),
     State (heap st)
           (console st
            ++ ["getDescription - unimplemented for: "
                +:+ ToString (field (props o) "type")]))
  ∧ ∀ s, props o !! "type" = Some (PStr s) →
      (getDescription this st).1 = Normal ("Unrecognized ItemMod type: " +:+ s).
Proof.
  intros Hthis. split; [by apply getDescription_run|].
  intros s Hs. rewrite (getDescription_run _ _ _ Hthis).
  unfold field. by rewrite Hs.
Qed.

(** C9: the default [beforeReceiveDamage] returns [damageToBeDealt] itself
    and changes nothing; so in the pre-damage fold an effect that inherits it
    can be left out of the chain without changing the outcome. *)
Theorem beforeReceiveDamage_identity :
  (∀ this attacker target damageToBeDealt st,
     beforeReceiveDamage this attacker target damageToBeDealt st
     = (Normal damageToBeDealt, st))
  ∧ (∀ hook pre m post attacker target damage st,
       (∀ a t d, hook m a t d = beforeReceiveDamage m a t d) →
       foldBeforeReceiveDamage hook (pre ++ m :: post) attacker target damage st
       = foldBeforeReceiveDamage hook (pre ++ post) attacker target damage st).
Proof.
  split; [done|].
  intros hook pre m post attacker target damage st Hm.
  revert damage st. induction pre as [|x pre IH]; intros damage st.
  - cbn [app foldBeforeReceiveDamage]. by rewrite Hm.
  - cbn [app foldBeforeReceiveDamage]. unfold mbind, M_bind.
    destruct (hook x attacker target damage st) as [[d'| |] st']; [|done..].
    apply IH.
Qed.

(** C10: the default [onDamageDealt] and [onDamageReceived] return
    [undefined] and leave the whole state (effect, attacker, target, console)
    as it was; the default [onBattleTurn] returns [false] and changes
    nothing; so in a turn-start dispatch an effect that inherits it does not
    take the one attack modification: the dispatch goes on to the effects
    after it, from the same state. *)
Theorem default_hooks_inert :
  (∀ this attacker target damageDealt st,
     onDamageDealt this attacker target damageDealt st
     = (Normal PUndefined, st))
  ∧ (∀ this attacker target damageDealt st,
       onDamageReceived this attacker target damageDealt st
       = (Normal PUndefined, st))
  ∧ (∀ this attacker st, onBattleTurn this attacker st = (Normal false, st))
  ∧ (∀ attempt m rest attacker st,
       (∀ a, attempt m a = onBattleTurn m a) →
       dispatchBattleTurn attempt (m :: rest) attacker st
       = (r ← dispatchBattleTurn attempt rest attacker;
          mret (r.1, (m, false) :: r.2)) st).
Proof.
  split_and!; try done.
  intros attempt m rest attacker st Hm.
  cbn [dispatchBattleTurn]. by rewrite Hm.
Qed.

(** ** The turn-start dispatch *)

(** C4: when every effect's [onBattleTurn] returns normally, the dispatch
    returns normally; what it records is what happened: exactly the recorded
    effects were invoked, in that order, with the recorded results, and the
    state after the dispatch is the state the last of them left; the
    recorded effects are a prefix of the attachment order; a [true] is the
    last thing the dispatch sees, so at most one attempt takes effect; every
    effect is invoked only if none returned [true].  Once an effect returns
    [true] after the effects before it all returned [false], the dispatch
    ends in the state that effect left, whatever effects are attached after
    it: they are not invoked.  With A, B, C attached in that order and each
    returning [true] when invoked, only A is invoked, and the state after
    the dispatch is the state A left. *)
Theorem dispatchBattleTurn_at_most_one :
  (∀ attempt mods attacker st,
     (∀ m a st0, completes (attempt m a st0)) →
     ∃ modified tr st',
       dispatchBattleTurn attempt mods attacker st = (Normal (modified, tr), st')
       ∧ invoked_in_order attempt attacker st tr st'
       ∧ tr.*1 `prefix_of` mods
       ∧ stops_at_first_true tr
       ∧ (length (filter (λ x, x.2 = true) tr) ≤ 1)%nat
       ∧ (modified = true ↔ ∃ m, last tr = Some (m, true))
       ∧ (modified = false → tr.*1 = mods))
  ∧ (∀ attempt pre m post attacker st tr st1 st2,
       dispatchBattleTurn attempt pre attacker st = (Normal (false, tr), st1) →
       attempt m attacker st1 = (Normal true, st2) →
       tr = (λ e, (e, false)) <$> pre
       ∧ dispatchBattleTurn attempt (pre ++ m :: post) attacker st
         = (Normal (true, tr ++ [(m, true)]), st2))
  ∧ (∀ attempt A B C attacker st,
       (∀ m a st0, m ∈ [A; B; C] →
                   ∃ st1, attempt m a st0 = (Normal true, st1)) →
       ∃ st',
         attempt A attacker st = (Normal true, st')
         ∧ dispatchBattleTurn attempt [A; B; C] attacker st
           = (Normal (true, [(A, true)]), st')).
Proof.
  split_and!.
  - intros attempt mods attacker st Htotal. revert st.
    induction mods as [|m rest IH]; intros st.
    + exists false, [], st. split_and!.
      * done.
      * constructor.
      * done.
      * intros i m Hi. by rewrite lookup_nil in Hi.
      * simpl. lia.
      * split; [done|]. by intros [m Hm].
      * done.
    + cbn [dispatchBattleTurn]. unfold mbind at 1, M_bind at 1.
      specialize (Htotal m attacker st) as Hm. unfold completes in Hm.
      destruct (attempt m attacker st) as [[b| |] st1] eqn:Hrun1;
        simpl in Hm; try done.
      destruct b.
      * exists true, [(m, true)], st1. split_and!.
        -- done.
        -- econstructor; [exact Hrun1 | constructor].
        -- simpl. by apply prefix_cons, prefix_nil.
        -- intros [|i] m' Hi; [done|]. by rewrite lookup_cons, lookup_nil in Hi.
        -- simpl. lia.
        -- split; [eauto|done].
        -- done.
      * destruct (IH st1)
          as (b' & tr' & st' & Hrun & Hinv & Hpre & Hstop & Hcnt & Hlast & Hall).
        exists b', ((m, false) :: tr'), st'.
        unfold mbind, M_bind. rewrite Hrun. split_and!.
        -- done.
        -- econstructor; [exact Hrun1 | exact Hinv].
        -- simpl. by apply prefix_cons.
        -- intros [|i] m' Hi; [done|]. simpl in *. f_equal. by eapply Hstop.
        -- rewrite filter_cons. by rewrite decide_False.
        -- rewrite Hlast. destruct tr' as [|x tr']; [|done].
           simpl. split; intros [m' Hm']; done.
        -- intros Hb'. simpl. f_equal. by apply Hall.
  - intros attempt pre m post attacker. 
    induction pre as [|e pre IH]; intros st tr st1 st2 Hpre Hm.
    + cbn in Hpre. injection Hpre as <- <-. split; [done|].
      cbn [app dispatchBattleTurn]. unfold mbind, M_bind. by rewrite Hm.
    + cbn [dispatchBattleTurn] in Hpre. unfold mbind at 1, M_bind at 1 in Hpre.
      cbn [app dispatchBattleTurn]. unfold mbind at 1, M_bind at 1.
      destruct (attempt e attacker st) as [[[]| |] st0]; try done.
      unfold mbind, M_bind in Hpre.
      destruct (dispatchBattleTurn attempt pre attacker st0)
        as [[[b tr0]| |] st0'] eqn:Hrest; try done.
      cbn in Hpre. injection Hpre as -> <- ->.
      destruct (IH _ _ _ _ Hrest Hm) as [-> Hrun].
      split; [done|].
      unfold mbind, M_bind. by rewrite Hrun.
  - intros attempt A B C attacker st Htrue.
    destruct (Htrue A attacker st) as [st' HA]; [set_solver|].
    exists st'. split; [done|].
    cbn [dispatchBattleTurn]. unfold mbind, M_bind. by rewrite HA.
Qed.

(** ** Persistence round trip *)

Lemma spec_rehydrate_serialize t r :
  spec_rehydrate_record (serialize (spec_instance t r))
  = Some (spec_instance t r).
Proof.
  unfold spec_rehydrate_record, serialize, spec_instance.
  destruct t; cbn [proto props declared_params foldl ItemModType_value];
    unfold field; by simplify_map_eq.
Qed.

(** C3: a live effect of a known variant, serialized and rehydrated on its
    own, comes back as a one-element array whose element is a new instance
    with the same variant, type tag and parameters; the original is
    untouched and nothing is logged. *)
Theorem rehydrate_serialize_roundtrip (st : state) (this : loc) (e : object) :
  live_effect st this e →
  ∃ m st',
    rehydrateMods [VObj (serialize e)] st = (Normal [m], st')
    ∧ heap st' !! m = Some e
    ∧ m ≠ this
    ∧ heap st' !! this = Some e
    ∧ console st' = console st.
Proof.
  intros [Hthis (t & r & ->)].
  exists (length (heap st)), (State (heap st ++ [spec_instance t r]) (console st)).
  pose proof (rehydrateMods_records [serialize (spec_instance t r)] st) as Hrun.
  unfold spec_rehydrate, spec_diagnostics in Hrun.
  cbn [omap list_omap] in Hrun. rewrite filter_cons in Hrun.
  rewrite spec_rehydrate_serialize in Hrun.
  rewrite decide_False in Hrun; last first.
  { intros Hf. apply has_known_type_false in Hf.
    by rewrite spec_rehydrate_serialize in Hf. }
  rewrite filter_nil in Hrun. cbn in Hrun. rewrite app_nil_r in Hrun.
  split_and!.
  - by destruct st.
  - cbn. by rewrite list_lookup_middle.
  - apply lookup_lt_Some in Hthis. lia.
  - cbn. by apply lookup_app_l_Some.
  - done.
Qed.

(** ** Lifetime properties *)

Lemma run_heap (c : call) (st : state) :
  heap (run c st).2 = heap st
  ∨ ∃ records, c = Call_rehydrateMods records
               ∧ heap (run c st).2 = heap st ++ spec_rehydrate records.
Proof.
  destruct c; try (by left).
  - left. unfold run, copy, get_prop, mbind, M_bind.
    by destruct (heap st !! this).
  - left. unfold run, getDescription, get_prop, mbind, M_bind.
    by destruct (heap st !! this).
  - right. exists records. split; [done|].
    unfold run, mbind, M_bind. by rewrite rehydrateMods_records.
Qed.

Lemma run_console (c : call) (st : state) :
  ∃ log, console (run c st).2 = console st ++ log.
Proof.
  destruct c; try (by exists []; rewrite app_nil_r).
  - unfold run, copy, get_prop, console_log, mbind, M_bind.
    destruct (heap st !! this); [by eexists|by exists []; rewrite app_nil_r].
  - unfold run, getDescription, get_prop, console_log, mbind, M_bind.
    destruct (heap st !! this); [by eexists|by exists []; rewrite app_nil_r].
  - unfold run, mbind, M_bind. rewrite rehydrateMods_records. by eexists.
Qed.

Lemma spec_instance_consistent t r : tag_consistent (spec_instance t r).
Proof.
  unfold tag_consistent, spec_instance.
  destruct t; cbn [proto props declared_params foldl ItemModType_value];
    by simplify_map_eq.
Qed.

Lemma spec_rehydrate_consistent records :
  Forall tag_consistent (spec_rehydrate records).
Proof.
  unfold spec_rehydrate. apply Forall_forall. intros e He.
  apply list_elem_of_omap in He as (r & _ & Hr).
  unfold spec_rehydrate_record in Hr.
  destruct (known_type (field r "type")) as [t|]; [|done].
  injection Hr as <-. apply spec_instance_consistent.
Qed.

Lemma run_preserves_objects c st : preserves_objects st (run c st).2.
Proof.
  intros l o Hl.
  destruct (run_heap c st) as [-> | (records & _ & ->)]; [done|].
  by apply lookup_app_l_Some.
Qed.

Lemma run_consistent c st : heap_consistent st → heap_consistent (run c st).2.
Proof.
  unfold heap_consistent. intros Hst.
  destruct (run_heap c st) as [-> | (records & _ & ->)]; [done|].
  apply Forall_app. split; [done | apply spec_rehydrate_consistent].
Qed.

Lemma run_all_snoc cs c st :
  run_all (cs ++ [c]) st = (run c (run_all cs st)).2.
Proof. unfold run_all. by rewrite foldl_app. Qed.

Lemma run_all_preserves_objects cs st : preserves_objects st (run_all cs st).
Proof.
  induction cs as [|c cs IH] using rev_ind; [by intros l o Hl|].
  rewrite run_all_snoc. intros l o Hl.
  by apply run_preserves_objects, IH.
Qed.

Lemma run_all_consistent cs st :
  heap_consistent st → heap_consistent (run_all cs st).
Proof.
  intros Hst. induction cs as [|c cs IH] using rev_ind; [done|].
  rewrite run_all_snoc. by apply run_consistent.
Qed.

(** C7: the four tags are the strings of the source table; the base-class
    constructor stores the tag it is given in the [type] field of the new
    object and touches no other object; an instance of a concrete variant
    carries its variant's tag; and no call into the core, nor any sequence of
    calls, changes an object that already exists, so an instance's tag stays
    what construction made it and stays consistent with its variant. *)
Theorem type_tag_stable :
  ItemModType_value <$> all_types
  = ["life leech"; "thorns"; "reduce damage"; "multiple projectiles"]
  ∧ (∀ type st,
       ∃ this st',
         new CItemMod (λ this, ItemMod this type) st = (Normal this, st')
         ∧ heap st !! this = None
         ∧ heap st' !! this = Some (Object CItemMod (<["type" := type]> ∅))
         ∧ preserves_objects st st')
  ∧ (∀ t r, tag_consistent (spec_instance t r))
  ∧ (∀ c st, preserves_objects st (run c st).2)
  ∧ (∀ cs st, preserves_objects st (run_all cs st))
  ∧ (∀ cs st, heap_consistent st → heap_consistent (run_all cs st)).
Proof.
  split_and!.
  - done.
  - intros type st. eexists _, _. split; [apply new_ItemMod|].
    cbn [heap]. split_and!.
    + by apply lookup_ge_None_2.
    + by rewrite list_lookup_middle.
    + intros l o Hl. by apply lookup_app_l_Some.
  - apply spec_instance_consistent.
  - apply run_preserves_objects.
  - apply run_all_preserves_objects.
  - apply run_all_consistent.
Qed.


(** ** rehydrateMods on arbitrary arrays *)

Lemma rehydrate_step_good finalMods v st :
  bad_slot v = false →
  rehydrate_step finalMods v st
  = rehydrate_step finalMods (VObj (slot_fields v)) st.
Proof.
  intros Hv. destruct v as [p|r]; [|done].
  destruct p; try done.
Qed.

Lemma rehydrate_step_bad finalMods v st :
  bad_slot v = true → rehydrate_step finalMods v st = (Throw TypeError, st).
Proof. intros Hv. destruct v as [[]|r]; done. Qed.


Lemma rehydrate_loop_app mods1 mods2 finalMods st :
  rehydrate_loop (mods1 ++ mods2) finalMods st
  = match rehydrate_loop mods1 finalMods st with
    | (Normal finalMods', st') => rehydrate_loop mods2 finalMods' st'
    | r => r
    end.
Proof.
  revert finalMods st.
  induction mods1 as [|v mods1 IH]; intros finalMods st; [done|].
  cbn [app rehydrate_loop]. unfold mbind, M_bind.
  destruct (rehydrate_step finalMods v st) as [[acc| |] st']; [apply IH|done..].
Qed.

Lemma rehydrate_step_acc finalMods v st :
  rehydrate_step finalMods v st
  = match rehydrate_step [] v st with
    | (Normal r, st') => (Normal (finalMods ++ r), st')
    | (Throw e, st') => (Throw e, st')
    | (Wrong, st') => (Wrong, st')
    end.
Proof.
  unfold rehydrate_step, mbind, M_bind.
  destruct (get_member v "type" st) as [[ty| |] st1]; [|done..].
  destruct (rehydrate_switch v ty st1) as [[[m|]| |] st2]; try done.
  unfold mret, M_ret. by rewrite app_nil_r.
Qed.

Lemma rehydrate_loop_acc mods finalMods st :
  rehydrate_loop mods finalMods st
  = match rehydrate_loop mods [] st with
    | (Normal r, st') => (Normal (finalMods ++ r), st')
    | (Throw e, st') => (Throw e, st')
    | (Wrong, st') => (Wrong, st')
    end.
Proof.
  revert finalMods st.
  induction mods as [|v mods IH]; intros finalMods st.
  - cbn. unfold mret, M_ret. by rewrite app_nil_r.
  - cbn [rehydrate_loop]. unfold mbind, M_bind.
    rewrite (rehydrate_step_acc finalMods).
    destruct (rehydrate_step [] v st) as [[r| |] st']; [|done..].
    rewrite (IH (finalMods ++ r)), (IH r).
    destruct (rehydrate_loop mods [] st') as [[r'| |] st'']; [|done..].
    by rewrite app_assoc.
Qed.

(** X4: [rehydrateMods] returns normally exactly when no slot of the array
    is [null] or [undefined]. *)
Theorem rehydrateMods_completes_iff (mods : list value) (st : state) :
  completes (rehydrateMods mods st)
  ↔ Forall (λ v, bad_slot v = false) mods.
Proof.
  unfold rehydrateMods. generalize (@nil loc) as finalMods. revert st.
  induction mods as [|v mods IH]; intros st finalMods.
  - split; [by intros _; apply Forall_nil|done].
  - cbn [rehydrate_loop]. unfold mbind, M_bind.
    destruct (bad_slot v) eqn:Hv.
    + rewrite (rehydrate_step_bad _ _ _ Hv). split; [done|].
      intros Hall. apply Forall_cons in Hall as [Hv' _]. congruence.
    + rewrite (rehydrate_step_good _ _ _ Hv), rehydrate_step_record.
      rewrite Forall_cons.
      destruct (spec_rehydrate_record (slot_fields v)); rewrite IH; tauto.
Qed.

(** X5: a [null] or [undefined] slot aborts the batch with a TypeError: no
    array is returned for the records before it, although their instances
    have been built on the heap and their diagnostics logged; nothing after
    the slot is looked at. *)
Theorem rehydrateMods_bad_slot_aborts (records : list record) (bad : value)
    (rest : list value) (st : state) :
  bad_slot bad = true →
  rehydrateMods ((VObj <$> records) ++ bad :: rest) st
  = (Throw TypeError,
     State (heap st ++ spec_rehydrate records)
           (console st ++ spec_diagnostics records)).
Proof.
  intros Hbad. unfold rehydrateMods.
  rewrite rehydrate_loop_app, rehydrate_loop_records.
  cbn [rehydrate_loop]. unfold mbind, M_bind.
  by rewrite (rehydrate_step_bad _ _ _ Hbad).
Qed.

(** X6: a slot holding a string, a number or a boolean is treated as a
    record without fields: wherever it stands in the array, it is dropped
    with the diagnostic for the type [undefined]. *)
Theorem rehydrateMods_primitive_slot (before after : list value) (p : prim)
    (st : state) :
  bad_slot (VPrim p) = false →
  rehydrateMods (before ++ VPrim p :: after) st
  = rehydrateMods (before ++ VObj ∅ :: after) st
  ∧ rehydrateMods [VPrim p] st
    = (Normal [],
       State (heap st)
             (console st ++ ["Unrecognized ItemModType: undefined"])).
Proof.
  intros Hp. split.
  - unfold rehydrateMods. rewrite !rehydrate_loop_app.
    destruct (rehydrate_loop before [] st) as [[acc| |] st']; [|done..].
    cbn [rehydrate_loop]. unfold mbind, M_bind.
    by rewrite (rehydrate_step_good _ _ _ Hp).
  - unfold rehydrateMods. cbn [rehydrate_loop]. unfold mbind, M_bind.
    by rewrite (rehydrate_step_good _ _ _ Hp).
Qed.

(** X7: rehydrating an array in two parts, one call after the other, gives
    the same state as one call on the whole array, and the whole result is
    the two results joined; a throw in either part is the throw of the
    whole. *)
Theorem rehydrateMods_app (mods1 mods2 : list value) (st : state) :
  rehydrateMods (mods1 ++ mods2) st
  = (finalMods1 ← rehydrateMods mods1;
     finalMods2 ← rehydrateMods mods2;
     mret (finalMods1 ++ finalMods2)) st.
Proof.
  unfold rehydrateMods, mbind, M_bind. rewrite rehydrate_loop_app.
  destruct (rehydrate_loop mods1 [] st) as [[r1| |] st1]; [|done..].
  rewrite rehydrate_loop_acc.
  by destruct (rehydrate_loop mods2 [] st1) as [[r2| |] st2].
Qed.

(** X8: the references [rehydrateMods] returns for an array of records are
    pairwise distinct, denote no object of the state it started from, and
    each denotes an object of the state it ends in. *)
Theorem rehydrateMods_fresh (records : list record) (st : state) :
  ∃ finalMods st',
    rehydrateMods (VObj <$> records) st = (Normal finalMods, st')
    ∧ NoDup finalMods
    ∧ Forall (λ m, heap st !! m = None ∧ is_Some (heap st' !! m)) finalMods.
Proof.
  eexists _, _. split; [apply rehydrateMods_records|]. split.
  - apply NoDup_seq.
  - apply Forall_forall. intros m Hm.
    apply elem_of_seq in Hm as [Hlo Hhi]. cbn [heap]. split.
    + by apply lookup_ge_None_2.
    + apply lookup_lt_is_Some_2. rewrite length_app. lia.
Qed.

Lemma spec_rehydrate_record_same r r' :
  same_read_fields r r' →
  spec_rehydrate_record r = spec_rehydrate_record r'
  ∧ diagnostic r = diagnostic r'.
Proof.
  intros [Hty Hparams]. unfold spec_rehydrate_record, diagnostic.
  rewrite <- Hty. split; [|done].
  destruct (known_type (field r "type")) as [t|] eqn:Ht; [|done].
  specialize (Hparams t eq_refl). cbn. f_equal. unfold spec_instance. f_equal.
  destruct t; cbn [declared_params foldl] in *;
    repeat (apply Forall_cons in Hparams as [-> Hparams]); done.
Qed.

(** X9: [rehydrateMods] reads from a record only its [type] and, for a
    known type, that type's own parameters: arrays of records that agree on
    those fields give the same result and the same state, whatever else the
    records hold. *)
Theorem rehydrateMods_reads_declared_fields (records records' : list record)
    (st : state) :
  Forall2 same_read_fields records records' →
  rehydrateMods (VObj <$> records) st = rehydrateMods (VObj <$> records') st.
Proof.
  intros Hsame. rewrite !rehydrateMods_records.
  assert (spec_rehydrate records = spec_rehydrate records'
          ∧ spec_diagnostics records = spec_diagnostics records') as [-> ->];
    [|done].
  unfold spec_rehydrate, spec_diagnostics.
  induction Hsame as [|r r' records records' Hr _ [IH1 IH2]]; [done|].
  destruct (spec_rehydrate_record_same _ _ Hr) as [Hrec Hdiag].
  cbn [omap list_omap]. rewrite !filter_cons, Hrec, IH1. split; [done|].
  assert (has_known_type r = has_known_type r') as <-.
  { unfold has_known_type. by rewrite (proj1 Hr). }
  case_decide; [|done]. by rewrite !fmap_cons, Hdiag, IH2.
Qed.

(** X10: run on an object that already exists, the base-class constructor
    replaces its [type], which reads back as given, and changes nothing
    else: the object keeps its prototype and every other property, every
    other object and the console stay as they were. *)
Theorem ItemMod_sets_only_type (this : loc) (o : object) (type : prim)
    (st : state) :
  heap st !! this = Some o →
  ∃ st',
    ItemMod this type st = (Normal tt, st')
    ∧ get_prop this "type" st' = (Normal type, st')
    ∧ (∀ k, k ≠ "type" →
            get_prop this k st' = (Normal (field (props o) k), st'))
    ∧ (∃ o', heap st' !! this = Some o' ∧ proto o' = proto o)
    ∧ (∀ m, m ≠ this → heap st' !! m = heap st !! m)
    ∧ console st' = console st.
Proof.
  intros Hthis. pose proof (lookup_lt_Some _ _ _ Hthis) as Hlt.
  unfold ItemMod, set_prop. rewrite Hthis. eexists. split; [done|].
  unfold get_prop. cbn [heap console].
  rewrite list_lookup_insert_eq by done. cbn [props proto]. split_and!.
  - unfold field. by rewrite lookup_insert_eq.
  - intros k Hk. unfold field. by rewrite lookup_insert_ne.
  - by eexists.
  - intros m Hm. by rewrite list_lookup_insert_ne.
  - done.
Qed.

(** ** What can throw *)




End ItemMod.

(** ** Closed instances *)

Lemma rehydrateMods_drops_unknown_witness :
  length (filter (λ r, has_known_type r = false)
                 [record_thorns; record_life_leech; record_unknown]) = 1
  ∧ ∃ finalMods st',
      rehydrateMods sample_Number_toString
        (VObj <$> [record_thorns; record_life_leech; record_unknown])
        empty_state
      = (Normal finalMods, st')
      ∧ S (length finalMods) = 3.
Proof.
  assert (Hone : length (filter (λ r, has_known_type r = false)
                   [record_thorns; record_life_leech; record_unknown]) = 1)
    by (vm_compute; reflexivity).
  split; [exact Hone|].
  destruct (rehydrateMods_drops_unknown sample_Number_toString
              [record_thorns; record_life_leech; record_unknown] empty_state)
    as (finalMods & st' & Hrun & _ & _ & _ & Hshort).
  exists finalMods, st'. split; [exact Hrun | exact (Hshort Hone)].
Defined.

Lemma rehydrate_serialize_roundtrip_witness :
  live_effect state_thorns 0 object_thorns_5
  ∧ ∃ m st',
      rehydrateMods sample_Number_toString [VObj (serialize object_thorns_5)]
        state_thorns
      = (Normal [m], st')
      ∧ heap st' !! m = Some object_thorns_5
      ∧ m ≠ 0.
Proof.
  assert (Hlive : live_effect state_thorns 0 object_thorns_5).
  { split; [reflexivity|]. exists THORNS, record_thorns. reflexivity. }
  split; [exact Hlive|].
  destruct (rehydrate_serialize_roundtrip sample_Number_toString
              state_thorns 0 object_thorns_5 Hlive)
    as (m & st' & Hrun & Hm & Hne & _ & _).
  exists m, st'. split_and!; assumption.
Defined.

Lemma copy_unimplemented_witness :
  heap state_base !! 0 = Some (Object CItemMod (<["type" := PStr "frost"]> ∅))
  ∧ copy sample_Number_toString 0 state_base
    = (Normal None,
       State (heap state_base) ["copy - unimplemented for: frost"]).
Proof.
  split; [reflexivity|].
  etrans.
  - apply (copy_unimplemented sample_Number_toString 0
             (Object CItemMod (<["type" := PStr "frost"]> ∅)) state_base).
    reflexivity.
  - vm_compute. reflexivity.
Defined.

Lemma getDescription_unimplemented_witness :
  heap state_base !! 0 = Some (Object CItemMod (<["type" := PStr "frost"]> ∅))
  ∧ (getDescription sample_Number_toString 0 state_base).1
    = Normal "Unrecognized ItemMod type: frost".
Proof.
  split; [reflexivity|].
  apply (proj2 (getDescription_unimplemented sample_Number_toString 0
                  (Object CItemMod (<["type" := PStr "frost"]> ∅)) state_base
                  eq_refl)).
  vm_compute. reflexivity.
Defined.

Lemma dispatchBattleTurn_at_most_one_witness :
  (∀ m a st0, completes (always_modifies m a st0))
  ∧ (∀ m a st0, m ∈ [0; 1; 2] →
                ∃ st1, always_modifies m a st0 = (Normal true, st1))
  ∧ (∃ modified tr st',
       dispatchBattleTurn always_modifies [0; 1; 2] 3 empty_state
       = (Normal (modified, tr), st')
       ∧ (length (filter (λ x, x.2 = true) tr) ≤ 1)%nat)
  ∧ dispatchBattleTurn always_modifies [0; 1; 2] 3 empty_state
    = (Normal (true, [(0, true)]), empty_state)
  ∧ dispatchBattleTurn second_modifies [0] 3 empty_state
    = (Normal (false, [(0, false)]),
       State [] ["onBattleTurn of effect 0"])
  ∧ second_modifies 1 3 (State [] ["onBattleTurn of effect 0"])
    = (Normal true,
       State [] ["onBattleTurn of effect 0"; "onBattleTurn of effect 1"])
  ∧ dispatchBattleTurn second_modifies ([0] ++ 1 :: [2]) 3 empty_state
    = (Normal (true, [(0, false)] ++ [(1, true)]),
       State [] ["onBattleTurn of effect 0"; "onBattleTurn of effect 1"]).
Proof.
  assert (Htotal : ∀ m a st0, completes (always_modifies m a st0))
    by (intros m a st0; exact I).
  assert (Htrue : ∀ m a st0, m ∈ [0; 1; 2] →
            ∃ st1, always_modifies m a st0 = (Normal true, st1))
    by (intros m a st0 _; exists st0; reflexivity).
  assert (Hpre : dispatchBattleTurn second_modifies [0] 3 empty_state
                 = (Normal (false, [(0, false)]),
                    State [] ["onBattleTurn of effect 0"]))
    by (vm_compute; reflexivity).
  assert (Hm : second_modifies 1 3 (State [] ["onBattleTurn of effect 0"])
               = (Normal true,
                  State [] ["onBattleTurn of effect 0";
                            "onBattleTurn of effect 1"]))
    by (vm_compute; reflexivity).
  split; [exact Htotal|]. split; [exact Htrue|]. split_and!.
  - destruct (proj1 dispatchBattleTurn_at_most_one
                always_modifies [0; 1; 2] 3 empty_state Htotal)
      as (modified & tr & st' & Hrun & _ & _ & _ & Hcnt & _).
    exists modified, tr, st'. split; assumption.
  - destruct (proj2 (proj2 dispatchBattleTurn_at_most_one)
                always_modifies 0 1 2 3 empty_state Htrue)
      as (st' & HA & Hrun).
    injection HA as <-. exact Hrun.
  - exact Hpre.
  - exact Hm.
  - exact (proj2 (proj1 (proj2 dispatchBattleTurn_at_most_one)
                    second_modifies [0] 1 [2] 3 empty_state _ _ _ Hpre Hm)).
Defined.

Lemma type_tag_stable_witness :
  heap_consistent state_thorns
  ∧ heap_consistent
      (run_all sample_Number_toString
         [Call_copy 0;
          Call_rehydrateMods [record_life_leech; record_unknown];
          Call_getDescription 0]
         state_thorns).
Proof.
  assert (Hst : heap_consistent state_thorns).
  { apply Forall_cons. split; [reflexivity | apply Forall_nil; exact I]. }
  split; [exact Hst|].
  exact (proj2 (proj2 (proj2 (proj2 (proj2
           (type_tag_stable sample_Number_toString))))) _ _ Hst).
Defined.




Lemma beforeReceiveDamage_identity_witness :
  (∀ a t d, beforeReceiveDamage 1 a t d = beforeReceiveDamage 1 a t d)
  ∧ foldBeforeReceiveDamage beforeReceiveDamage ([0] ++ 1 :: [2]) 3 4
      (PNum num_5) empty_state
    = foldBeforeReceiveDamage beforeReceiveDamage ([0] ++ [2]) 3 4
        (PNum num_5) empty_state.
Proof.
  split; [reflexivity|].
  apply (proj2 beforeReceiveDamage_identity). reflexivity.
Defined.

Lemma default_hooks_inert_witness :
  (∀ a, onBattleTurn 0 a = onBattleTurn 0 a)
  ∧ dispatchBattleTurn onBattleTurn [0; 1] 2 empty_state
    = (r ← dispatchBattleTurn onBattleTurn [1] 2;
       mret (r.1, (0, false) :: r.2)) empty_state.
Proof.
  split; [reflexivity|].
  apply (proj2 (proj2 (proj2 default_hooks_inert))). reflexivity.
Defined.

(** ** Sample runs *)

(** A record that lacks its parameter field is still rehydrated: the
    constructor receives [undefined]. *)
Example rehydrateMods_missing_field :
  rehydrateMods sample_Number_toString [VObj (<["type" := PStr "thorns"]> ∅)]
    empty_state
  = (Normal [0],
     State [Object (CVariant THORNS)
              (<["thornsDamage" := PUndefined]>
                 (<["type" := PStr "thorns"]> ∅))]
           []).
Proof. reflexivity. Qed.

(** A record without a [type], and one whose [type] is the number 5, are
    dropped with a diagnostic each. *)
Example rehydrateMods_untyped_records :
  rehydrateMods sample_Number_toString
    [VObj ∅; VObj (<["type" := PNum num_5]> ∅)] empty_state
  = (Normal [],
     State []
           ["Unrecognized ItemModType: undefined";
            "Unrecognized ItemModType: 5"]).
Proof. vm_compute. reflexivity. Qed.

(** The tags are compared exactly: another spelling is an unknown type. *)
Example rehydrateMods_case_sensitive :
  (rehydrateMods sample_Number_toString
     [VObj (<["type" := PStr "Thorns"]> ∅)] empty_state).1
  = Normal [].
Proof. reflexivity. Qed.

(** The sample numbers are doubles. *)
Example sample_numbers_valid :
  valid_binary 53 1024 num_5 = true
  ∧ valid_binary 53 1024 num_0_3 = true
  ∧ valid_binary 53 1024 num_0_5 = true.
Proof. by vm_compute. Qed.

(** * HammerHelper: the reset that waits for the next frame *)

(** X1: an update leaves no reset pending, and a second update right after
    it changes nothing. *)
Theorem HammerHelper_update_settles (h : HammerHelper.t) :
  HammerHelper.hammerResetDragging (HammerHelper.update h) = false
  ∧ HammerHelper.hammerResetTransforming (HammerHelper.update h) = false
  ∧ HammerHelper.update (HammerHelper.update h) = HammerHelper.update h.
Proof. by destruct h as [[] [] [] []]. Qed.

(** X2: firing the reset handler does not end the drag at once: the
    dragging flag keeps its value until the next update, which clears it
    together with the pending reset; the transform flags come out as they
    would have without the handler. *)
Theorem HammerHelper_reset_waits_for_update {Event : Type} (event : Event)
    (h : HammerHelper.t) :
  let fired := HammerHelper.getResetDraggingHandler event h in
  HammerHelper.hammerDragging fired = HammerHelper.hammerDragging h
  ∧ HammerHelper.hammerTransforming fired = HammerHelper.hammerTransforming h
  ∧ HammerHelper.hammerResetTransforming fired
    = HammerHelper.hammerResetTransforming h
  ∧ HammerHelper.hammerDragging (HammerHelper.update fired) = false
  ∧ HammerHelper.hammerResetDragging (HammerHelper.update fired) = false
  ∧ HammerHelper.hammerTransforming (HammerHelper.update fired)
    = HammerHelper.hammerTransforming (HammerHelper.update h)
  ∧ HammerHelper.hammerResetTransforming (HammerHelper.update fired)
    = HammerHelper.hammerResetTransforming (HammerHelper.update h).
Proof. by destruct h as [[] [] [] []]. Qed.

(** X3: an update only ever clears flags; with no reset pending it is the
    identity, and a pending transform reset alone leaves the drag flag
    alone. *)
Theorem HammerHelper_update_only_clears (h : HammerHelper.t) :
  (HammerHelper.hammerDragging (HammerHelper.update h) = true →
   HammerHelper.hammerDragging h = true)
  ∧ (HammerHelper.hammerTransforming (HammerHelper.update h) = true →
     HammerHelper.hammerTransforming h = true)
  ∧ (HammerHelper.hammerResetDragging h = false →
     HammerHelper.hammerResetTransforming h = false →
     HammerHelper.update h = h)
  ∧ (HammerHelper.hammerResetDragging h = false →
     HammerHelper.hammerDragging (HammerHelper.update h)
     = HammerHelper.hammerDragging h).
Proof. by destruct h as [[] [] [] []]. Qed.

Lemma HammerHelper_update_only_clears_witness :
  HammerHelper.hammerResetDragging (HammerHelper.Build true false true true)
  = false
  ∧ HammerHelper.hammerDragging
      (HammerHelper.update (HammerHelper.Build true false true true))
    = true
  ∧ HammerHelper.hammerTransforming
      (HammerHelper.update (HammerHelper.Build true false true true))
    = false.
Proof.
  split; [reflexivity|]. split.
  - rewrite (proj2 (proj2 (proj2 (HammerHelper_update_only_clears
               (HammerHelper.Build true false true true)))) eq_refl).
    reflexivity.
  - reflexivity.
Defined.

(** * Facts about JavaScript arithmetic *)

Lemma SFcompare_refl (a : number) :
  JS.is_NaN a = false → SFcompare a a = Some Eq.
Proof.
  destruct a as [s|s| |s m e]; try done.
  - by destruct s.
  - intros _. cbn. rewrite Z.compare_refl, Pos.compare_cont_refl.
    by destruct s.
Qed.

Lemma SFcompare_antisym (a b : number) :
  SFcompare b a = CompOpp <$> SFcompare a b.
Proof.
  destruct a as [s|s| |s m e], b as [s'|s'| |s' m' e']; cbn; try done;
    try (by destruct s); try (by destruct s'); try (by destruct s, s').
  pose proof (Z.compare_antisym e e') as He.
  pose proof (Pos.compare_cont_antisym m m' Eq) as Hm. cbn in Hm.
  destruct s, s'; cbn; try done;
    destruct (e ?= e')%Z, (e' ?= e)%Z; try done;
    by destruct (Pos.compare_cont Eq m m'), (Pos.compare_cont Eq m' m).
Qed.

Lemma Math_min_le_l (a b : number) :
  JS.is_NaN (JS.Math_min a b) = true ∨ SFleb (JS.Math_min a b) a = true.
Proof.
  unfold JS.Math_min, SFleb.
  destruct (SFcompare a b) as [[]|] eqn:Hab; [| | |by left].
  - right. destruct a as [[]|s| |s m e]; try done;
      by rewrite SFcompare_antisym, Hab.
  - right. rewrite SFcompare_refl; [done|]. by destruct a.
  - right. by rewrite SFcompare_antisym, Hab.
Qed.

Lemma Math_min_NaN (a b : number) :
  JS.is_NaN (JS.Math_min a b) = JS.is_NaN a || JS.is_NaN b.
Proof.
  unfold JS.Math_min.
  destruct a as [s|s| |s m e], b as [s'|s'| |s' m' e']; cbn; try done;
    try (by destruct s); try (by destruct s'); try (by destruct s, s').
  destruct s, s'; try done;
    destruct (e ?= e')%Z; try done; cbn;
    by destruct (Pos.compare_cont Eq m m').
Qed.

Lemma Math_max_zero_nonneg (v : number) :
  JS.is_NaN (JS.Math_max JS.zero v) = true
  ∨ JS.nonneg (JS.Math_max JS.zero v) = true.
Proof. destruct v as [[]|[]| |[] m e]; cbn; auto. Qed.

Lemma Math_max_zero_id (v : number) :
  JS.nonneg v = true → JS.Math_max JS.zero v = v.
Proof. by destruct v as [[]|[]| |[] m e]. Qed.

Lemma add_zero_r (v : number) :
  JS.nonneg v = true → JS.add v JS.zero = v.
Proof. by destruct v as [[]|[]| |[] m e]. Qed.

Lemma binary_round_aux_sign (s : bool) (m e : Z) (l : location) :
  let r := binary_round_aux JS.prec JS.emax s m e l in
  JS.is_NaN r = true ∨ JS.nonneg r = negb s.
Proof.
  cbv zeta. unfold binary_round_aux.
  destruct (shr_fexp JS.prec JS.emax m e l) as [mrs' e'].
  destruct (shr_fexp JS.prec JS.emax _ e' loc_Exact) as [mrs'' e''].
  destruct (shr_m mrs'') as [|p|p]; [by right| |by left].
  destruct (e'' <=? JS.emax - JS.prec)%Z; by right.
Qed.

Lemma div_nonneg (a b : number) :
  JS.nonneg a = true → JS.nonneg b = true →
  JS.is_NaN (JS.div a b) = true ∨ JS.nonneg (JS.div a b) = true.
Proof.
  destruct a as [[]|[]| |[] m e], b as [[]|[]| |[] m' e']; try done;
    intros _ _; cbn; auto.
  unfold JS.div, SFdiv.
  destruct (SFdiv_core_binary _ _ _ _ _ _) as [[mz ez] lz].
  apply (binary_round_aux_sign false).
Qed.

Lemma mul_nonneg (a b : number) :
  JS.nonneg a = true → JS.nonneg b = true →
  JS.is_NaN (JS.mul a b) = true ∨ JS.nonneg (JS.mul a b) = true.
Proof.
  destruct a as [[]|[]| |[] m e], b as [[]|[]| |[] m' e']; try done;
    intros _ _; cbn; auto.
  apply (binary_round_aux_sign false).
Qed.

Lemma div_NaN_l (b : number) : JS.div JS.NaN b = JS.NaN.
Proof. done. Qed.

Lemma mul_NaN_l (b : number) : JS.mul JS.NaN b = JS.NaN.
Proof. done. Qed.

(** Scaling a coordinate that is NaN or has a clear sign bit by two such
    factors, as the minimap does to get a world coordinate. *)
Lemma scale_nonneg (v w p : number) :
  JS.is_NaN v = true ∨ JS.nonneg v = true →
  JS.nonneg w = true → JS.nonneg p = true →
  JS.is_NaN (JS.mul (JS.div v w) p) = true
  ∨ JS.nonneg (JS.mul (JS.div v w) p) = true.
Proof.
  intros [Hv|Hv] Hw Hp.
  - destruct v; try done. by left.
  - destruct (div_nonneg v w Hv Hw) as [Hd|Hd].
    + destruct (JS.div v w); try done. by left.
    + by apply mul_nonneg.
Qed.

(** * Minimap: the view rectangle and the drag handlers *)

(** X11: after zoomChanged the view rectangle is never wider or taller than
    the panel: its width is NaN or at most the panel's width, and likewise
    its height; NaN arises only from a NaN operand of the final Math.min.
    The panel and the view's position are left as they were. *)
Theorem zoomChanged_clamps (this : Minimap.t) (camera : Minimap.Camera)
    (currentMap : Minimap.Map) :
  let this' := Minimap.zoomChanged this camera currentMap in
  (JS.is_NaN (Minimap.viewW this') = true
   ∨ SFleb (Minimap.viewW this') (Minimap.width this) = true)
  ∧ (JS.is_NaN (Minimap.viewH this') = true
     ∨ SFleb (Minimap.viewH this') (Minimap.height this) = true)
  ∧ JS.is_NaN (Minimap.viewW this')
    = JS.is_NaN (Minimap.width this)
      || JS.is_NaN (JS.Math_round
                      (JS.mul (JS.div (Minimap.viewWidth camera)
                                      (Minimap.widthInPixels currentMap))
                              (Minimap.width this)))
  ∧ Minimap.width this' = Minimap.width this
  ∧ Minimap.height this' = Minimap.height this
  ∧ Minimap.viewX this' = Minimap.viewX this
  ∧ Minimap.viewY this' = Minimap.viewY this.
Proof.
  cbv zeta. unfold Minimap.zoomChanged, Minimap.set_view.
  cbn [Minimap.viewW Minimap.viewH Minimap.width Minimap.height
       Minimap.viewX Minimap.viewY].
  split_and!; try done.
  - apply Math_min_le_l.
  - apply Math_min_le_l.
  - apply Math_min_NaN.
Qed.

(** X12: when the camera has no room to pan along an axis (the current and
    the maximal pan are both zero), panChanged divides zero by zero and
    sets that coordinate of the view to NaN. *)
Theorem panChanged_without_pan_range (this : Minimap.t)
    (camera : Minimap.Camera) (s1 s2 : bool) :
  (Minimap.curPanX camera = S754_zero s1 →
   Minimap.maxPanX camera = S754_zero s2 →
   Minimap.viewX (Minimap.panChanged this camera) = JS.NaN)
  ∧ (Minimap.curPanY camera = S754_zero s1 →
     Minimap.maxPanY camera = S754_zero s2 →
     Minimap.viewY (Minimap.panChanged this camera) = JS.NaN).
Proof.
  unfold Minimap.panChanged, Minimap.set_view.
  cbn [Minimap.viewX Minimap.viewY].
  split; intros -> ->; done.
Qed.

(** X13: a drag event that arrives before any drag start finds no start
    position and pans the camera to (NaN, NaN). *)
Theorem handleDragEvent_before_start (this : Minimap.t)
    (currentMap : Minimap.Map) (event : Minimap.DragEvent) :
  Minimap.dragStartPos this = Minimap.BuildDragStartPos None None →
  Minimap.handleDragEvent this currentMap event
  = Minimap.BuildPanCall JS.NaN JS.NaN true.
Proof. unfold Minimap.handleDragEvent. by intros ->. Qed.

(** X14: for a panel and a map whose sizes have a clear sign bit,
    handleDragEvent never pans to a negative coordinate, however far left of
    or above the panel the drag goes: each coordinate is NaN or has a clear
    sign bit. *)
Theorem handleDragEvent_never_negative (this : Minimap.t)
    (currentMap : Minimap.Map) (event : Minimap.DragEvent) :
  JS.nonneg (Minimap.width this) = true →
  JS.nonneg (Minimap.height this) = true →
  JS.nonneg (Minimap.widthInPixels currentMap) = true →
  JS.nonneg (Minimap.heightInPixels currentMap) = true →
  let call := Minimap.handleDragEvent this currentMap event in
  (JS.is_NaN (Minimap.panX call) = true ∨ JS.nonneg (Minimap.panX call) = true)
  ∧ (JS.is_NaN (Minimap.panY call) = true
     ∨ JS.nonneg (Minimap.panY call) = true).
Proof.
  intros Hw Hh Hpw Hph. cbv zeta. unfold Minimap.handleDragEvent.
  cbn [Minimap.panX Minimap.panY].
  split; apply scale_nonneg; auto using Math_max_zero_nonneg.
Qed.

(** X15: a drag that starts at a point not left of and not above the
    panel's corner, followed by a drag event that reports no movement, pans
    the camera exactly where centerMinimapOn does for the starting point. *)
Theorem drag_without_movement_centers (this : Minimap.t)
    (currentMap : Minimap.Map) (start drag : Minimap.DragEvent) :
  JS.nonneg (JS.sub (Minimap.pageX start) (Minimap.x this)) = true →
  JS.nonneg (JS.sub (Minimap.pageY start) (Minimap.y this)) = true →
  Minimap.deltaX drag = JS.zero →
  Minimap.deltaY drag = JS.zero →
  Minimap.handleDragEvent (Minimap.handleDragStart this start) currentMap drag
  = Minimap.centerMinimapOn this currentMap
      (Minimap.pageX start) (Minimap.pageY start).
Proof.
  intros Hx Hy Hdx Hdy.
  unfold Minimap.handleDragEvent, Minimap.handleDragStart,
    Minimap.centerMinimapOn.
  cbn [Minimap.dragStartPos Minimap.origX Minimap.origY Minimap.width
       Minimap.height Minimap.x Minimap.y JS.ToNumber default].
  rewrite Hdx, Hdy, !add_zero_r by done. by rewrite !Math_max_zero_id.
Qed.

(** * Minimap: painting the map *)

Lemma tile_ops_beyond this currentMap start n :
  (length (Minimap.mapTiles currentMap) ≤ start)%nat →
  Minimap.tile_ops this currentMap start n = [].
Proof.
  intros Hlen. unfold Minimap.tile_ops. revert start Hlen.
  induction n as [|n IH]; intros start Hlen; [done|].
  cbn [seq omap list_omap].
  rewrite (lookup_ge_None_2 (Minimap.mapTiles currentMap) start) by done.
  cbn. apply IH. lia.
Qed.

Lemma tile_ops_app this currentMap start n1 n2 :
  Minimap.tile_ops this currentMap start (n1 + n2)
  = Minimap.tile_ops this currentMap start n1
    ++ Minimap.tile_ops this currentMap (start + n1) n2.
Proof. unfold Minimap.tile_ops. by rewrite seq_app, omap_app. Qed.

Lemma tile_ops_length this currentMap n :
  length (Minimap.tile_ops this currentMap 0 n)
  = n `min` length (Minimap.mapTiles currentMap).
Proof.
  unfold Minimap.tile_ops.
  induction n as [|n IH]; [done|].
  rewrite seq_S, omap_app, length_app, IH. cbn [omap list_omap Nat.add].
  destruct (Minimap.mapTiles currentMap !! n) as [tile|] eqn:Hn;
    cbn [fmap option_fmap option_map length].
  - apply lookup_lt_Some in Hn. lia.
  - apply lookup_ge_None_1 in Hn. lia.
Qed.

(** The inner loop over the columns [a], ..., [a + n - 1] of row [row]. *)
Lemma draw_row_run this currentMap row n a ctx :
  (a + n ≤ Minimap.numCols currentMap)%nat →
  let tileWidth :=
    JS.Math_ceil (JS.div (Minimap.width this)
                         (JS.of_nat (Minimap.numCols currentMap))) in
  let tileHeight :=
    JS.Math_ceil (JS.div (Minimap.height this)
                         (JS.of_nat (Minimap.numRows currentMap))) in
  let start := row * Minimap.numCols currentMap + a in
  let r :=
    Minimap.for_each (Minimap.draw_tile currentMap tileWidth tileHeight row)
                     (seq a n) ctx in
  Minimap.ops r.2
  = Minimap.ops ctx ++ Minimap.tile_ops this currentMap start n
  ∧ r.1 = if bool_decide
               (n = 0 ∨ (start + n ≤ length (Minimap.mapTiles currentMap))%nat)
          then Normal tt else Throw TypeError.
Proof.
  cbv zeta. revert a ctx.
  induction n as [|n IH]; intros a ctx Ha.
  - cbn. rewrite app_nil_r. split; [done|].
    by rewrite bool_decide_eq_true_2 by (by left).
  - cbn [seq Minimap.for_each]. unfold Minimap.draw_tile at 1 3.
    unfold Minimap.tile_ops. cbn [seq omap list_omap].
    destruct (Minimap.mapTiles currentMap
                !! (row * Minimap.numCols currentMap + a)) as [tile|] eqn:Ht.
    + destruct (IH (S a)
                  (Minimap.BuildContext
                     (if Minimap.isWalkable tile
                      then "rgba(0,255,0,.55)" else "rgba(37,37,37,.55)")
                     (Minimap.ops ctx ++
                        [Minimap.tile_op this currentMap
                           (row * Minimap.numCols currentMap + a) tile])))
        as [IHops IHout]; [lia|].
      assert (Hop : Minimap.tile_op this currentMap
                      (row * Minimap.numCols currentMap + a) tile
                    = Minimap.OpFillRect
                        (if Minimap.isWalkable tile
                         then "rgba(0,255,0,.55)" else "rgba(37,37,37,.55)")
                        (JS.Math_round (JS.mul (JS.of_nat a)
                           (JS.Math_ceil (JS.div (Minimap.width this)
                              (JS.of_nat (Minimap.numCols currentMap))))))
                        (JS.Math_round (JS.mul (JS.of_nat row)
                           (JS.Math_ceil (JS.div (Minimap.height this)
                              (JS.of_nat (Minimap.numRows currentMap))))))
                        (JS.Math_ceil (JS.div (Minimap.width this)
                           (JS.of_nat (Minimap.numCols currentMap))))
                        (JS.Math_ceil (JS.div (Minimap.height this)
                           (JS.of_nat (Minimap.numRows currentMap))))).
      { unfold Minimap.tile_op. cbv zeta.
        replace ((row * Minimap.numCols currentMap + a)
                 `mod` Minimap.numCols currentMap) with a
          by (rewrite Nat.add_comm, Nat.Div0.mod_add, Nat.mod_small; lia).
        replace ((row * Minimap.numCols currentMap + a)
                 `div` Minimap.numCols currentMap) with row
          by (rewrite Nat.div_add_l, Nat.div_small; lia).
        done. }
      rewrite <- Hop. cbn [fmap option_fmap option_map].
      split.
      * rewrite IHops. cbn [Minimap.ops]. rewrite <- app_assoc. cbn.
        unfold Minimap.tile_ops. by rewrite Nat.add_succ_r.
      * rewrite IHout. apply lookup_lt_Some in Ht.
        repeat case_bool_decide; try done; lia.
    + cbn. apply lookup_ge_None_1 in Ht. split.
      * pose proof (tile_ops_beyond this currentMap
                      (S (row * Minimap.numCols currentMap + a)) n) as Hnil.
        unfold Minimap.tile_ops in Hnil. rewrite Hnil by lia.
        by rewrite app_nil_r.
      * rewrite bool_decide_eq_false_2; [done|]. lia.
Qed.

(** The outer loop over the rows [b], ..., [b + m - 1]. *)
Lemma draw_rows_run this currentMap m b ctx :
  let tileWidth :=
    JS.Math_ceil (JS.div (Minimap.width this)
                         (JS.of_nat (Minimap.numCols currentMap))) in
  let tileHeight :=
    JS.Math_ceil (JS.div (Minimap.height this)
                         (JS.of_nat (Minimap.numRows currentMap))) in
  let cols := Minimap.numCols currentMap in
  let r :=
    Minimap.for_each
      (λ row, Minimap.for_each
                (Minimap.draw_tile currentMap tileWidth tileHeight row)
                (seq 0 cols))
      (seq b m) ctx in
  Minimap.ops r.2
  = Minimap.ops ctx ++ Minimap.tile_ops this currentMap (b * cols) (m * cols)
  ∧ r.1 = if bool_decide
               (m * cols = 0
                ∨ ((b + m) * cols ≤ length (Minimap.mapTiles currentMap))%nat)
          then Normal tt else Throw TypeError.
Proof.
  cbv zeta. revert b ctx.
  induction m as [|m IH]; intros b ctx.
  - cbn. rewrite app_nil_r. split; [done|].
    by rewrite bool_decide_eq_true_2 by (by left).
  - cbn [seq Minimap.for_each].
    destruct (draw_row_run this currentMap b (Minimap.numCols currentMap) 0 ctx)
      as [Hops Hout]; [lia|].
    cbv zeta in Hops, Hout. rewrite Nat.add_0_r in Hops, Hout.
    destruct (Minimap.for_each _ (seq 0 (Minimap.numCols currentMap)) ctx)
      as [out1 ctx1].
    cbn [fst snd] in Hops, Hout.
    replace (S m * Minimap.numCols currentMap)
      with (Minimap.numCols currentMap + m * Minimap.numCols currentMap)
      by lia.
    rewrite tile_ops_app, app_assoc, <- Hops.
    case_bool_decide as Hrow; subst out1.
    + destruct (IH (S b) ctx1) as [IHops IHout].
      replace (b * Minimap.numCols currentMap + Minimap.numCols currentMap)
        with (S b * Minimap.numCols currentMap) by lia.
      split; [done|]. rewrite IHout.
      repeat case_bool_decide; try done; exfalso; nia.
    + cbn [fst snd]. rewrite tile_ops_beyond by lia.
      rewrite app_nil_r. split; [done|].
      rewrite bool_decide_eq_false_2; [done|]. nia.
Qed.

Lemma drawMap_run this currentMap ctx :
  Minimap.minimapCtx this = Some ctx →
  ∃ ctx',
    Minimap.drawMapToMinimapCanvas this currentMap
    = (if bool_decide
            ((Minimap.numRows currentMap * Minimap.numCols currentMap
              ≤ length (Minimap.mapTiles currentMap))%nat)
       then Normal tt else Throw TypeError,
       Minimap.set_ctx this ctx')
    ∧ Minimap.ops ctx'
      = Minimap.ops ctx
        ++ Minimap.OpClearRect JS.zero JS.zero (Minimap.width this)
                               (Minimap.height this)
           :: Minimap.tile_ops this currentMap 0
                (Minimap.numRows currentMap * Minimap.numCols currentMap).
Proof.
  intros Hctx. unfold Minimap.drawMapToMinimapCanvas. rewrite Hctx.
  match goal with
  | |- context [Minimap.for_each ?body (seq 0 ?m) ?c] =>
      destruct (draw_rows_run this currentMap m 0 c) as [Hops Hout];
      cbv zeta in Hops, Hout;
      destruct (Minimap.for_each body (seq 0 m) c) as [out ctx']
  end.
  cbn [fst snd Minimap.ops] in *. exists ctx'. split.
  - f_equal. rewrite Hout. repeat case_bool_decide; try done; exfalso; nia.
  - rewrite Hops, <- app_assoc. done.
Qed.

(** X16: with a context in place and a tile for every cell of the grid,
    drawMapToMinimapCanvas returns normally, having asked the context to
    clear the panel once and then to fill one rectangle per tile, row by
    row, all of one size, green for a walkable tile and grey for any
    other. *)
Theorem drawMap_paints_every_tile (this : Minimap.t)
    (currentMap : Minimap.Map) (ctx : Minimap.Context) :
  Minimap.minimapCtx this = Some ctx →
  (Minimap.numRows currentMap * Minimap.numCols currentMap
   ≤ length (Minimap.mapTiles currentMap))%nat →
  ∃ ctx',
    Minimap.drawMapToMinimapCanvas this currentMap
    = (Normal tt, Minimap.set_ctx this ctx')
    ∧ Minimap.ops ctx'
      = Minimap.ops ctx
        ++ Minimap.OpClearRect JS.zero JS.zero (Minimap.width this)
                               (Minimap.height this)
           :: Minimap.tile_ops this currentMap 0
                (Minimap.numRows currentMap * Minimap.numCols currentMap)
    ∧ length (Minimap.tile_ops this currentMap 0
                (Minimap.numRows currentMap * Minimap.numCols currentMap))
      = Minimap.numRows currentMap * Minimap.numCols currentMap.
Proof.
  intros Hctx Hlen.
  destruct (drawMap_run this currentMap ctx Hctx) as (ctx' & Hrun & Hops).
  rewrite bool_decide_eq_true_2 in Hrun by done.
  exists ctx'. split_and!; [done..|].
  rewrite tile_ops_length. lia.
Qed.

(** X17: when the map has fewer tiles than cells, drawMapToMinimapCanvas
    throws a TypeError at the first missing tile: by then the panel has been
    cleared and every tile that exists has been painted, and these
    operations stay on the context. *)
Theorem drawMap_missing_tile_throws (this : Minimap.t)
    (currentMap : Minimap.Map) (ctx : Minimap.Context) :
  Minimap.minimapCtx this = Some ctx →
  (length (Minimap.mapTiles currentMap)
   < Minimap.numRows currentMap * Minimap.numCols currentMap)%nat →
  ∃ ctx',
    Minimap.drawMapToMinimapCanvas this currentMap
    = (Throw TypeError, Minimap.set_ctx this ctx')
    ∧ Minimap.ops ctx'
      = Minimap.ops ctx
        ++ Minimap.OpClearRect JS.zero JS.zero (Minimap.width this)
                               (Minimap.height this)
           :: Minimap.tile_ops this currentMap 0
                (length (Minimap.mapTiles currentMap))
    ∧ length (Minimap.tile_ops this currentMap 0
                (length (Minimap.mapTiles currentMap)))
      = length (Minimap.mapTiles currentMap).
Proof.
  intros Hctx Hlen.
  destruct (drawMap_run this currentMap ctx Hctx) as (ctx' & Hrun & Hops).
  rewrite bool_decide_eq_false_2 in Hrun by lia.
  exists ctx'. split_and!; [done| |].
  - rewrite Hops. do 2 f_equal.
    replace (Minimap.numRows currentMap * Minimap.numCols currentMap)
      with (length (Minimap.mapTiles currentMap)
            + (Minimap.numRows currentMap * Minimap.numCols currentMap
               - length (Minimap.mapTiles currentMap))) by lia.
    rewrite tile_ops_app, (tile_ops_beyond _ _ (0 + _)) by lia.
    by rewrite app_nil_r.
  - rewrite tile_ops_length. lia.
Qed.

Lemma canvas_dimension_range (default : Z) (v : number) :
  (0 ≤ default ≤ 2147483647)%Z →
  (0 ≤ Minimap.canvas_dimension default v ≤ 2147483647)%Z.
Proof.
  intros Hdefault. unfold Minimap.canvas_dimension. cbv zeta.
  assert (0 ≤ JS.ToUint32 v)%Z.
  { destruct v as [s|s| |s m e]; try done.
    unfold JS.ToUint32. cbv zeta. apply Z.mod_pos_bound. lia. }
  destruct (Z.leb_spec (JS.ToUint32 v) 2147483647); lia.
Qed.

(** X18: initialize sets up the canvas on the first call only.  After any
    call the minimap is marked initialized; a minimap that was not gets a
    canvas whose width and height are the panel's, converted as a canvas
    element converts them: integers between 0 and 2147483647; one that was
    initialized keeps the canvas it has, whatever the panel's size is by
    then; a first call returns normally exactly when the map has a tile for
    every cell, and a call on an initialized minimap whose context is still
    null throws. *)
Theorem initialize_creates_canvas_once (this : Minimap.t)
    (camera : Minimap.Camera) (currentMap : Minimap.Map) :
  let r := Minimap.initialize this camera currentMap in
  Minimap.initializedCanvas r.2 = true
  ∧ (Minimap.initializedCanvas this = false →
     Minimap.minimapCanvas r.2
     = Some (Minimap.BuildCanvas
               (Minimap.canvas_dimension 300 (Minimap.width this))
               (Minimap.canvas_dimension 150 (Minimap.height this)))
     ∧ (0 ≤ Minimap.canvas_dimension 300 (Minimap.width this) ≤ 2147483647)%Z
     ∧ (0 ≤ Minimap.canvas_dimension 150 (Minimap.height this) ≤ 2147483647)%Z
     ∧ (r.1 = Normal tt
        ↔ (Minimap.numRows currentMap * Minimap.numCols currentMap
           ≤ length (Minimap.mapTiles currentMap))%nat))
  ∧ (Minimap.initializedCanvas this = true →
     Minimap.minimapCanvas r.2 = Minimap.minimapCanvas this)
  ∧ (Minimap.initializedCanvas this = true →
     Minimap.minimapCtx this = None →
     r = (Throw TypeError, this)).
Proof.
  cbv zeta. unfold Minimap.initialize.
  destruct (Minimap.initializedCanvas this) eqn:Hinit; cbn [negb].
  - destruct (Minimap.minimapCtx this) as [ctx|] eqn:Hctx.
    + destruct (drawMap_run this currentMap ctx Hctx) as (ctx' & -> & _).
      case_bool_decide; cbn; by rewrite ?Hinit.
    + unfold Minimap.drawMapToMinimapCanvas. rewrite Hctx. cbn.
      by rewrite Hinit.
  - match goal with
    | |- context [Minimap.drawMapToMinimapCanvas ?t currentMap] =>
        destruct (drawMap_run t currentMap (Minimap.BuildContext "#000000" []))
          as (ctx' & -> & _); [done|]
    end.
    pose proof (canvas_dimension_range 300 (Minimap.width this)) as Hw.
    pose proof (canvas_dimension_range 150 (Minimap.height this)) as Hh.
    specialize (Hw ltac:(lia)). specialize (Hh ltac:(lia)).
    case_bool_decide; cbn; split_and!; try done; intros _; split_and!;
      try done; split; try done; tauto.
Qed.

(** * Closed instances of the further properties *)

Lemma rehydrateMods_completes_iff_witness :
  Forall (λ v, bad_slot v = false) [VObj record_thorns; VPrim (PStr "thorns")]
  ∧ completes (rehydrateMods sample_Number_toString
                 [VObj record_thorns; VPrim (PStr "thorns")] empty_state).
Proof.
  assert (Hgood : Forall (λ v, bad_slot v = false)
                    [VObj record_thorns; VPrim (PStr "thorns")])
    by (repeat constructor).
  split; [exact Hgood|].
  exact (proj2 (rehydrateMods_completes_iff sample_Number_toString _ _) Hgood).
Defined.

Lemma rehydrateMods_bad_slot_aborts_witness :
  bad_slot (VPrim PNull) = true
  ∧ rehydrateMods sample_Number_toString
      ((VObj <$> [record_thorns]) ++ VPrim PNull :: [VObj record_life_leech])
      empty_state
    = (Throw TypeError, State [object_thorns_5] []).
Proof.
  split; [reflexivity|].
  etrans.
  - apply (rehydrateMods_bad_slot_aborts sample_Number_toString
             [record_thorns] (VPrim PNull) [VObj record_life_leech]
             empty_state).
    reflexivity.
  - vm_compute. reflexivity.
Defined.

Lemma rehydrateMods_primitive_slot_witness :
  bad_slot (VPrim (PStr "thorns")) = false
  ∧ rehydrateMods sample_Number_toString [VPrim (PStr "thorns")] empty_state
    = (Normal [], State [] ["Unrecognized ItemModType: undefined"]).
Proof.
  split; [reflexivity|].
  exact (proj2 (rehydrateMods_primitive_slot sample_Number_toString [] []
                  (PStr "thorns") empty_state eq_refl)).
Defined.

Lemma rehydrateMods_reads_declared_fields_witness :
  Forall2 same_read_fields
    [record_thorns] [<["chanceToLeech" := PNum num_0_3]> record_thorns]
  ∧ rehydrateMods sample_Number_toString (VObj <$> [record_thorns]) empty_state
    = rehydrateMods sample_Number_toString
        (VObj <$> [<["chanceToLeech" := PNum num_0_3]> record_thorns])
        empty_state.
Proof.
  assert (Hsame : Forall2 same_read_fields
            [record_thorns] [<["chanceToLeech" := PNum num_0_3]> record_thorns]).
  { constructor; [|constructor].
    split; [reflexivity|].
    intros t Ht. vm_compute in Ht. injection Ht as <-.
    constructor; [reflexivity | constructor]. }
  split; [exact Hsame|].
  exact (rehydrateMods_reads_declared_fields sample_Number_toString
           _ _ empty_state Hsame).
Defined.

Lemma ItemMod_sets_only_type_witness :
  heap state_thorns !! 0 = Some object_thorns_5
  ∧ ∃ st',
      ItemMod 0 (PStr "frost") state_thorns = (Normal tt, st')
      ∧ get_prop 0 "type" st' = (Normal (PStr "frost"), st').
Proof.
  split; [reflexivity|].
  destruct (ItemMod_sets_only_type 0 object_thorns_5 (PStr "frost")
              state_thorns eq_refl)
    as (st' & Hrun & Hget & _).
  exists st'. split; assumption.
Defined.

Lemma panChanged_without_pan_range_witness :
  Minimap.curPanX sample_camera = S754_zero false
  ∧ Minimap.maxPanX sample_camera = S754_zero false
  ∧ Minimap.viewX (Minimap.panChanged sample_minimap sample_camera) = JS.NaN.
Proof.
  split; [reflexivity|]. split; [reflexivity|].
  exact (proj1 (panChanged_without_pan_range sample_minimap sample_camera
                  false false) eq_refl eq_refl).
Defined.

Lemma handleDragEvent_before_start_witness :
  Minimap.dragStartPos Minimap.initial = Minimap.BuildDragStartPos None None
  ∧ Minimap.handleDragEvent Minimap.initial sample_map sample_drag_start
    = Minimap.BuildPanCall JS.NaN JS.NaN true.
Proof.
  split; [reflexivity|].
  exact (handleDragEvent_before_start Minimap.initial sample_map
           sample_drag_start eq_refl).
Defined.

Lemma handleDragEvent_never_negative_witness :
  JS.nonneg (Minimap.width sample_minimap) = true
  ∧ JS.nonneg (Minimap.height sample_minimap) = true
  ∧ JS.nonneg (Minimap.widthInPixels sample_map) = true
  ∧ JS.nonneg (Minimap.heightInPixels sample_map) = true
  ∧ (JS.is_NaN (Minimap.panX (Minimap.handleDragEvent
                   (Minimap.handleDragStart sample_minimap sample_drag_start)
                   sample_map sample_drag_start)) = true
     ∨ JS.nonneg (Minimap.panX (Minimap.handleDragEvent
                    (Minimap.handleDragStart sample_minimap sample_drag_start)
                    sample_map sample_drag_start)) = true).
Proof.
  split_and!; [reflexivity..|].
  exact (proj1 (handleDragEvent_never_negative
                  (Minimap.handleDragStart sample_minimap sample_drag_start)
                  sample_map sample_drag_start
                  eq_refl eq_refl eq_refl eq_refl)).
Defined.

Lemma drag_without_movement_centers_witness :
  JS.nonneg (JS.sub (Minimap.pageX sample_drag_start)
                    (Minimap.x sample_minimap)) = true
  ∧ JS.nonneg (JS.sub (Minimap.pageY sample_drag_start)
                      (Minimap.y sample_minimap)) = true
  ∧ Minimap.handleDragEvent
      (Minimap.handleDragStart sample_minimap sample_drag_start)
      sample_map sample_drag_start
    = Minimap.centerMinimapOn sample_minimap sample_map
        (JS.of_nat 10) (JS.of_nat 20).
Proof.
  assert (Hx : JS.nonneg (JS.sub (Minimap.pageX sample_drag_start)
                                 (Minimap.x sample_minimap)) = true)
    by (vm_compute; reflexivity).
  assert (Hy : JS.nonneg (JS.sub (Minimap.pageY sample_drag_start)
                                 (Minimap.y sample_minimap)) = true)
    by (vm_compute; reflexivity).
  split; [exact Hx|]. split; [exact Hy|].
  exact (drag_without_movement_centers sample_minimap sample_map
           sample_drag_start sample_drag_start Hx Hy eq_refl eq_refl).
Defined.

Lemma drawMap_paints_every_tile_witness :
  Minimap.minimapCtx sample_minimap
  = Some (Minimap.BuildContext "#000000" [])
  ∧ (Minimap.numRows sample_map * Minimap.numCols sample_map
     ≤ length (Minimap.mapTiles sample_map))%nat
  ∧ ∃ ctx',
      Minimap.drawMapToMinimapCanvas sample_minimap sample_map
      = (Normal tt, Minimap.set_ctx sample_minimap ctx')
      ∧ length (Minimap.ops ctx') = 5.
Proof.
  assert (Hlen : (Minimap.numRows sample_map * Minimap.numCols sample_map
                  ≤ length (Minimap.mapTiles sample_map))%nat)
    by (vm_compute; lia).
  split; [reflexivity|]. split; [exact Hlen|].
  destruct (drawMap_paints_every_tile sample_minimap sample_map
              (Minimap.BuildContext "#000000" []) eq_refl Hlen)
    as (ctx' & Hrun & Hops & Hcount).
  exists ctx'. split; [exact Hrun|].
  rewrite Hops. cbn [Minimap.ops app length]. rewrite Hcount. reflexivity.
Defined.

Lemma drawMap_missing_tile_throws_witness :
  Minimap.minimapCtx sample_minimap
  = Some (Minimap.BuildContext "#000000" [])
  ∧ (length (Minimap.mapTiles sample_map_short)
     < Minimap.numRows sample_map_short * Minimap.numCols sample_map_short)%nat
  ∧ ∃ ctx',
      Minimap.drawMapToMinimapCanvas sample_minimap sample_map_short
      = (Throw TypeError, Minimap.set_ctx sample_minimap ctx')
      ∧ length (Minimap.ops ctx') = 4.
Proof.
  assert (Hlen : (length (Minimap.mapTiles sample_map_short)
                  < Minimap.numRows sample_map_short
                    * Minimap.numCols sample_map_short)%nat)
    by (vm_compute; lia).
  split; [reflexivity|]. split; [exact Hlen|].
  destruct (drawMap_missing_tile_throws sample_minimap sample_map_short
              (Minimap.BuildContext "#000000" []) eq_refl Hlen)
    as (ctx' & Hrun & Hops & Hcount).
  exists ctx'. split; [exact Hrun|].
  rewrite Hops. cbn [Minimap.ops app length]. rewrite Hcount. reflexivity.
Defined.

Lemma initialize_creates_canvas_once_witness :
  Minimap.initializedCanvas Minimap.initial = false
  ∧ Minimap.minimapCanvas
      (Minimap.initialize Minimap.initial sample_camera sample_map).2
    = Some (Minimap.BuildCanvas 100 100)
  ∧ (Minimap.initialize Minimap.initial sample_camera sample_map).1
    = Normal tt.
Proof.
  split; [reflexivity|].
  destruct (proj1 (proj2 (initialize_creates_canvas_once Minimap.initial
                            sample_camera sample_map)) eq_refl)
    as (Hcanvas & _ & _ & Hiff).
  split.
  - rewrite Hcanvas. vm_compute. reflexivity.
  - apply Hiff. vm_compute. lia.
Defined.

(** A canvas keeps whole sizes: 10.5 becomes 10, NaN becomes 0, and a
    negative size falls back to the default. *)
Example canvas_dimension_samples :
  Minimap.canvas_dimension 300 (binary_normalize 53 1024 21 (-1) false) = 10%Z
  ∧ Minimap.canvas_dimension 300 (JS.of_nat 100) = 100%Z
  ∧ Minimap.canvas_dimension 300 JS.NaN = 0%Z
  ∧ Minimap.canvas_dimension 300 (binary_normalize 53 1024 (-5) 0 false)
    = 300%Z
  ∧ Minimap.canvas_dimension 150 (binary_normalize 53 1024 (-1) (-1) false)
    = 0%Z.
Proof. by vm_compute. Qed.

